(** * Permutation enumeration and maximum of a float vector

    A shallow embedding of [src/prrmutations.cpp] (two Rcpp exports,
    [permutations] and [maxC]) and the properties of it that the
    specification states.

    Conventions of the model.
    - [std::vector<int>] is [list Z]; [std::vector<std::vector<int>>] is
      [list (list Z)]; [std::vector<float>] is a list of IEEE values
      ([spec_float] of the Standard Library, compared with [SFltb]).
    - An [int] has 32 bits and is a [Z] within [INT_MIN .. INT_MAX]: an
      increment beyond [INT_MAX] is undefined behaviour, and a size passed
      where an [int] is taken is converted modulo [2^32].  Sizes of vectors
      ([size_t]) and the counts of the environment are [nat].
    - Allocation never fails: a [push_back] and the construction of a
      matrix of non-negative extents always succeed ([std::bad_alloc] and
      [std::length_error] are not modelled), so a vector can have any
      size.
    - [std::next_permutation] and [std::max_element] are the library
      algorithms, written on indices as the library writes them on iterators.
    - A read or write outside a container, like every undefined behaviour,
      is the outcome [Undefined]; an error raised by R is [HostError].
    - [Rcpp::checkUserInterrupt] consults the environment: [pending k] tells
      whether an interrupt is pending at the [k]-th check since the
      environment started; the check then throws and the call is abandoned
      ([Interrupted]).
    - The do-while loop takes a fuel; [OutOfFuel] is the model's own outcome
      and the theorems show that [n!] is enough. *)

From Stdlib Require Import List ZArith Lia Bool Arith.
From Stdlib Require Import Permutation Sorted Factorial.
From Stdlib Require Import Floats.SpecFloat.
Import ListNotations.

Local Open Scope Z_scope.

(** * The program *)

(** ** Outcomes *)

Inductive result (A : Type) : Type :=
| Done (a : A)
| Interrupted
| Undefined
| HostError
| OutOfFuel.

Arguments Done {A} a.
Arguments Interrupted {A}.
Arguments Undefined {A}.
Arguments HostError {A}.
Arguments OutOfFuel {A}.

Definition bind {A B : Type} (r : result A) (k : A -> result B) : result B :=
  match r with
  | Done a => k a
  | Interrupted => Interrupted
  | Undefined => Undefined
  | HostError => HostError
  | OutOfFuel => OutOfFuel
  end.

Notation "x <- r ;; k" := (bind r (fun x => k))
  (at level 61, r at next level, right associativity).

(** The error kinds of the specification; the code can only produce the
    one that the interrupt check raises. *)
Inductive error_kind : Type := InvalidArgument | ResourceExhausted | Cancelled.

Definition failure_kind {A : Type} (r : result A) : option error_kind :=
  match r with
  | Interrupted => Some Cancelled
  | _ => None
  end.

(** ** The type int *)

Definition INT_MAX : Z := 2147483647.
Definition INT_MIN : Z := -2147483648.

(** [i++] on an [int]: beyond [INT_MAX] the behaviour is undefined. *)
Definition incr (i : Z) : result Z :=
  if i <? INT_MAX then Done (i + 1) else Undefined.

(** The conversion of a [size_t] to [int], as an argument of a function
    that takes an [int]: modulo [2^32], into [INT_MIN .. INT_MAX]. *)
Definition to_int (z : Z) : Z := (z + 2147483648) mod 4294967296 - 2147483648.

(** ** Vectors and std::next_permutation *)

(** [v[k]] where [k] is in range. *)
Definition at_ (v : list Z) (k : nat) : Z := nth k v 0.

(** [v[k] = x]; nothing happens out of range (the callers stay in range). *)
Fixpoint set_nth {A : Type} (v : list A) (k : nat) (x : A) : list A :=
  match v, k with
  | [], _ => []
  | _ :: t, O => x :: t
  | h :: t, S k' => h :: set_nth t k' x
  end.

(** The backward scan of the library, [ii = i; --i;] then the test
    [v[i] < v[ii]] and, failing it, the test [i == first]; it starts with
    [ii] on the last element and finds the greatest [i < ii] with
    [v[i] < v[i+1]]. *)
Fixpoint find_ascent (v : list Z) (ii : nat) : option nat :=
  match ii with
  | O => None
  | S i => if at_ v i <? at_ v ii then Some i else find_ascent v i
  end.

(** [j = last;] then [--j] until [x < v[j]]: the greatest position below
    [j] whose element is above [x].  The library's loop has no guard; it stops
    at the ascent at the latest, so the base case is never reached. *)
Fixpoint find_greater (v : list Z) (x : Z) (j : nat) : nat :=
  match j with
  | O => O
  | S j' => if x <? at_ v j' then j' else find_greater v x j'
  end.

(** [std::iter_swap(i, j)]. *)
Definition iter_swap (v : list Z) (i j : nat) : list Z :=
  set_nth (set_nth v i (at_ v j)) j (at_ v i).

(** [std::reverse(first + k, last)]. *)
Definition reverse_from (v : list Z) (k : nat) : list Z :=
  firstn k v ++ rev (skipn k v).

(** The returned flag and the vector after the call. *)
Definition next_permutation (v : list Z) : bool * list Z :=
  match find_ascent v (length v - 1) with
  | Some i =>
      let j := find_greater v (at_ v i) (length v) in
      (true, reverse_from (iter_swap v i j) (S i))
  | None => (false, rev v)
  end.

(** ** permutations *)

(** The three locals the loops touch: [v], [data] and the number of
    interrupt checks made so far. *)
Record state : Type := mkState {
  st_v : list Z;
  st_data : list (list Z);
  st_tick : nat
}.

(** [Rcpp::NumericMatrix]: its two dimensions, which are [int]s, and its
    cells, by row.  The cells hold the [int] values converted to [double],
    which is exact. *)
Record NumericMatrix : Type := mkMatrix {
  nrow : Z;
  ncol : Z;
  cells : list (list Z)
}.

Section Permutations.

(** Whether an interrupt is pending at the [k]-th check. *)
Variable pending : nat -> bool.

Definition checkUserInterrupt (tick : nat) : result nat :=
  if pending tick then Interrupted else Done (S tick).

(** [do { if (i == n) data.push_back(v); Rcpp::checkUserInterrupt(); }
    while (std::next_permutation(v.begin(), v.end()));]
    The check is outside the [if], whatever the indentation says. *)
Fixpoint do_while (fuel : nat) (i n : Z) (s : state) : result state :=
  match fuel with
  | O => OutOfFuel
  | S fuel' =>
      let data' := if i =? n then st_data s ++ [st_v s] else st_data s in
      tick' <- checkUserInterrupt (st_tick s) ;;
      let (more, v') := next_permutation (st_v s) in
      if more then do_while fuel' i n (mkState v' data' tick')
      else Done (mkState v' data' tick')
  end.

(** [for (int i = 1; i <= n; i++) { v.push_back(i); do ... while ...; }]
    with [k] the number of iterations left, [n + 1 - i].  The counter is an
    [int]: [i++] is made after every pass, the last one too, and with
    [i = INT_MAX] it overflows. *)
Fixpoint for_loop (fuel : nat) (k : nat) (i n : Z) (s : state) : result state :=
  match k with
  | O => Done s
  | S k' =>
      s' <- do_while fuel i n (mkState (st_v s ++ [i]) (st_data s) (st_tick s)) ;;
      i' <- incr i ;;
      for_loop fuel k' i' n s'
  end.

(** The loops of [permutations] from the empty locals. *)
Definition record_rows (fuel : nat) (n : Z) (tick : nat) : result state :=
  for_loop fuel (Z.to_nat n) 1 n (mkState [] [] tick).

End Permutations.

(** [output(i, j) = x], within the dimensions only.  ([Rcpp] computes the
    position [i + nrow * j] and does not check [i] and [j]: with [i] past
    the rows the write lands in another cell or past the cells.) *)
Definition mat_set (m : NumericMatrix) (i j : Z) (x : Z) : result NumericMatrix :=
  if (0 <=? i) && (i <? nrow m) && (0 <=? j) && (j <? ncol m) then
    Done (mkMatrix (nrow m) (ncol m)
            (set_nth (cells m) (Z.to_nat i)
                     (set_nth (nth (Z.to_nat i) (cells m) []) (Z.to_nat j) x)))
  else Undefined.

(** [data[i][j]], within both vectors only. *)
Definition data_at (data : list (list Z)) (i j : Z) : result Z :=
  if (i <? 0) || (j <? 0) then Undefined
  else
    match nth_error data (Z.to_nat i) with
    | Some row => match nth_error row (Z.to_nat j) with
                  | Some x => Done x
                  | None => Undefined
                  end
    | None => Undefined
    end.

(** [for (auto j = 0; j < data[0].size(); j++) output(i, j) = data[i][j];]
    with [k] the number of iterations left.  [auto j = 0] is an [int]. *)
Fixpoint copy_row (k : nat) (data : list (list Z)) (i j : Z)
    (out : NumericMatrix) : result NumericMatrix :=
  match k with
  | O => Done out
  | S k' =>
      x <- data_at data i j ;;
      out' <- mat_set out i j x ;;
      j' <- incr j ;;
      copy_row k' data i j' out'
  end.

(** [for (auto i = 0; i < data.size(); i++) ...] with [k] the number of
    iterations left, [data.size() - i].  [auto i = 0] is an [int], counted
    up against the [size_t] size. *)
Fixpoint copy_rows (k : nat) (data : list (list Z)) (i : Z) (width : nat)
    (out : NumericMatrix) : result NumericMatrix :=
  match k with
  | O => Done out
  | S k' =>
      out' <- copy_row width data i 0 out ;;
      i' <- incr i ;;
      copy_rows k' data i' width out'
  end.

(** [Rcpp::NumericMatrix output(data.size(), data[0].size());] and the
    copy.  The constructor takes two [int]s, so both sizes are converted;
    R refuses a negative extent, and a fresh matrix is filled with zeros. *)
Definition to_matrix (data : list (list Z)) : result NumericMatrix :=
  match nth_error data 0 with
  | None => Undefined
  | Some row0 =>
      let h := to_int (Z.of_nat (length data)) in
      let w := to_int (Z.of_nat (length row0)) in
      if (h <? 0) || (w <? 0) then HostError
      else
        copy_rows (length data) data 0 (length row0)
                  (mkMatrix h w (repeat (repeat 0 (Z.to_nat w)) (Z.to_nat h)))
  end.

(** The exported function: the matrix and the environment's check count
    after the call. *)
Definition permutations (pending : nat -> bool) (fuel : nat) (n : Z)
    (tick : nat) : result (NumericMatrix * nat) :=
  s <- record_rows pending fuel n tick ;;
  m <- to_matrix (st_data s) ;;
  Done (m, st_tick s).

(** ** maxC *)

(** [v[k]] of a float vector where [k] is in range. *)
Definition fat (v : list spec_float) (k : nat) : spec_float := nth k v S754_nan.

(** The loop of [std::max_element], [while (++first != last) if (v[result] <
    v[first]) result = first;], with [k] the number of passes left. *)
Fixpoint max_element_loop (v : list spec_float) (k : nat) (first result : nat) : nat :=
  match k with
  | O => result
  | S k' =>
      let first' := S first in
      max_element_loop v k' first'
        (if SFltb (fat v result) (fat v first') then first' else result)
  end.

(** [std::max_element(v.begin(), v.end())] as a position; on the empty
    vector it is [last]. *)
Definition max_element (v : list spec_float) : nat :=
  match v with
  | [] => O
  | _ :: _ => max_element_loop v (length v - 1) 0 0
  end.

(** [return *std::max_element(v.begin(), v.end());] *)
Definition maxC (v : list spec_float) : result spec_float :=
  match nth_error v (max_element v) with
  | Some x => Done x
  | None => Undefined
  end.

(** * The vocabulary of the properties *)

(** ** The environment *)

(** No interrupt is ever pending. *)
Definition no_interrupt : nat -> bool := fun _ => false.

(** No interrupt is pending at any check. *)
Definition quiet (pending : nat -> bool) : Prop := forall k, pending k = false.

(** ** Orders, runs and the listing of all permutations *)

(** Strictly ascending and strictly descending vectors. *)
Definition ascending (l : list Z) : Prop := StronglySorted Z.lt l.
Definition descending (l : list Z) : Prop := StronglySorted (fun x y => y < x) l.

(** [chain v L w]: from [v], successive calls that answer [true] lead to
    [w], and [L] lists the vectors met, both ends included. *)
Inductive chain : list Z -> list (list Z) -> list Z -> Prop :=
| chain_one (v : list Z) : chain v [v] v
| chain_step (v v' w : list Z) (L : list (list Z)) :
    next_permutation v = (true, v') -> chain v' L w -> chain v (v :: L) w.

(** Each element of [l] in turn, with the others in their order; [pre] holds
    the elements already passed. *)
Fixpoint selections_aux (pre l : list Z) : list (Z * list Z) :=
  match l with
  | [] => []
  | h :: post => (h, pre ++ post) :: selections_aux (pre ++ [h]) post
  end.

(** All arrangements of the [n] elements of [l]: a first element, then all
    arrangements of the others. *)
Fixpoint lex_perms (n : nat) (l : list Z) : list (list Z) :=
  match n with
  | O => [[]]
  | S n' =>
      flat_map (fun p => map (cons (fst p)) (lex_perms n' (snd p)))
               (selections_aux [] l)
  end.

(** The order of [std::lexicographical_compare]. *)
Fixpoint lex_lt (a b : list Z) : Prop :=
  match a, b with
  | _, [] => False
  | [], _ :: _ => True
  | x :: a', y :: b' => x < y \/ (x = y /\ lex_lt a' b')
  end.

(** [1, 2, ..., k], as the successive [push_back]s build it. *)
Definition iota (k : nat) : list Z := map Z.of_nat (seq 1 k).

(** The rows that start with the selected element. *)
Definition block (n : nat) (p : Z * list Z) : list (list Z) :=
  map (cons (fst p)) (lex_perms n (snd p)).

(** The number of passes of all the do-while loops for [i = m+1 .. m+k]. *)
Definition sum_fact (m k : nat) : nat := list_sum (map fact (seq (S m) k)).

(** ** Floats *)

(** The binary32 values 3.0, 1.5, 9.2 (rounded), -4.0 and 1.0. *)
Definition f32_3_0 : spec_float := S754_finite false 12582912 (-22).
Definition f32_1_5 : spec_float := S754_finite false 12582912 (-23).
Definition f32_9_2 : spec_float := S754_finite false 9646899 (-20).
Definition f32_m4_0 : spec_float := S754_finite true 8388608 (-21).
Definition f32_1_0 : spec_float := S754_finite false 8388608 (-23).

Definition is_nan (x : spec_float) : bool :=
  match x with S754_nan => true | _ => false end.

(** [r] is an element of [v] and every element is at most [r]. *)
Definition greatest (v : list spec_float) (r : spec_float) : Prop :=
  In r v /\ forall x, In x v -> SFleb x r = true.

(** ** The enumeration as the specification puts it *)

(** [do { data.push_back(v); Rcpp::checkUserInterrupt(); }
    while (std::next_permutation(v.begin(), v.end()));] *)
Fixpoint enumerate_loop (pending : nat -> bool) (fuel : nat) (s : state) : result state :=
  match fuel with
  | O => OutOfFuel
  | S fuel' =>
      let data' := st_data s ++ [st_v s] in
      tick' <- checkUserInterrupt pending (st_tick s) ;;
      let (more, v') := next_permutation (st_v s) in
      if more then enumerate_loop pending fuel' (mkState v' data' tick')
      else Done (mkState v' data' tick')
  end.

(** Without the outer loop: the complete sequence [1..n] is built and its
    permutations are enumerated directly; the rows of the grid, in the
    order produced, and the environment's check count. *)
Definition permutations_direct (pending : nat -> bool) (fuel : nat) (n : Z)
    (tick : nat) : result (list (list Z) * nat) :=
  s <- enumerate_loop pending fuel (mkState (iota (Z.to_nat n)) [] tick) ;;
  Done (st_data s, st_tick s).

(** All permutations of [1..n] in lexicographic order, with no call of
    [std::next_permutation]: each element in ascending turn as first entry,
    followed by every arrangement of the others, in the same way. *)
Definition enumerate_lex (n : nat) : list (list Z) := lex_perms n (iota n).

(** ** Factorials as integers *)

Fixpoint Zfact (n : nat) : Z :=
  match n with
  | O => 1
  | S n' => Z.of_nat n * Zfact n'
  end.

(** ** Vectors with repeated elements *)

(** No element is below a later one; no element is above a later one. *)
Definition nonincreasing (l : list Z) : Prop := StronglySorted (fun x y => y <= x) l.
Definition nondecreasing (l : list Z) : Prop := StronglySorted Z.le l.

(** One pass of the loop of [std::max_element] on values: the current
    result is kept unless it is below the next element. *)
Definition keep_greater (r y : spec_float) : spec_float :=
  if SFltb r y then y else r.

(** * Properties *)

(** ** Two runs of the model *)

Example permutations_3 :
  permutations no_interrupt 6 3 0 =
  Done (mkMatrix 6 3 [[1;2;3];[1;3;2];[2;1;3];[2;3;1];[3;1;2];[3;2;1]], 9%nat).
Proof. reflexivity. Qed.

Example next_permutation_dups :
  next_permutation [1;2;2;3;1] = (true, [1;2;3;1;2]).
Proof. reflexivity. Qed.

(** ** Sorted lists *)

Section StronglySortedFacts.

Context {A : Type} (R : A -> A -> Prop).

Lemma StronglySorted_app_iff (a b : list A) :
  StronglySorted R (a ++ b) <->
  StronglySorted R a /\ StronglySorted R b /\
  (forall x y, In x a -> In y b -> R x y).
Proof.
  induction a as [|h a IH]; simpl.
  - split.
    + intros Hb. repeat split; [constructor | assumption | contradiction].
    + intros (_ & Hb & _). assumption.
  - split.
    + intros H. apply StronglySorted_inv in H. destruct H as [Hs Hf].
      apply IH in Hs. destruct Hs as (Ha & Hb & Hab).
      rewrite Forall_app in Hf. destruct Hf as [Hfa Hfb].
      repeat split; [constructor; assumption | assumption |].
      intros x y [<- | Hx] Hy.
      * rewrite Forall_forall in Hfb. now apply Hfb.
      * now apply Hab.
    + intros (Ha & Hb & Hab).
      apply StronglySorted_inv in Ha. destruct Ha as [Ha Hf].
      constructor.
      * apply IH. repeat split; [assumption | assumption |].
        intros x y Hx Hy. apply Hab; [now right | assumption].
      * rewrite Forall_app. split; [assumption |].
        rewrite Forall_forall. intros y Hy. apply Hab; [now left | assumption].
Qed.

End StronglySortedFacts.

Lemma StronglySorted_rev {A : Type} (R : A -> A -> Prop) (l : list A) :
  StronglySorted R l -> StronglySorted (fun x y => R y x) (rev l).
Proof.
  induction 1 as [|h l Hs IH Hf]; simpl.
  - constructor.
  - apply StronglySorted_app_iff. repeat split.
    + assumption.
    + constructor; constructor.
    + intros x y Hx [<- | []]. rewrite Forall_forall in Hf.
      apply Hf. now apply in_rev.
Qed.

Lemma ascending_rev (l : list Z) : ascending l -> descending (rev l).
Proof. apply StronglySorted_rev. Qed.

(** ** The index operations *)

Lemma at_cons (h : Z) (t : list Z) (k : nat) : at_ (h :: t) (S k) = at_ t k.
Proof. reflexivity. Qed.

Lemma at_middle (a b : list Z) (y : Z) : at_ (a ++ y :: b) (length a) = y.
Proof. apply nth_middle. Qed.

Lemma set_nth_middle {A : Type} (a b : list A) (y x : A) :
  set_nth (a ++ y :: b) (length a) x = a ++ x :: b.
Proof. induction a as [|h a IH]; simpl; [reflexivity | now rewrite IH]. Qed.

Lemma find_ascent_Some (v : list Z) (k i : nat) :
  find_ascent v k = Some i -> (i < k)%nat /\ at_ v i < at_ v (S i).
Proof.
  induction k as [|k IH]; simpl; [discriminate |].
  destruct (at_ v k <? at_ v (S k)) eqn:E.
  - intros [= <-]. split; [lia | now apply Z.ltb_lt].
  - intros H. apply IH in H. split; [lia | tauto].
Qed.

Lemma find_ascent_cons_Some (h : Z) (t : list Z) (k i : nat) :
  find_ascent t k = Some i -> find_ascent (h :: t) (S k) = Some (S i).
Proof.
  induction k as [|k IH]; [discriminate |].
  intros H. simpl in H. change (find_ascent (h :: t) (S (S k)))
    with (if at_ t k <? at_ t (S k) then Some (S k) else find_ascent (h :: t) (S k)).
  destruct (at_ t k <? at_ t (S k)).
  - now injection H as <-.
  - now apply IH.
Qed.

Lemma find_ascent_cons_None (h : Z) (t : list Z) (k : nat) :
  find_ascent t k = None ->
  find_ascent (h :: t) (S k) = if h <? at_ t 0 then Some O else None.
Proof.
  induction k as [|k IH]; [reflexivity |].
  intros H. simpl in H. change (find_ascent (h :: t) (S (S k)))
    with (if at_ t k <? at_ t (S k) then Some (S k) else find_ascent (h :: t) (S k)).
  destruct (at_ t k <? at_ t (S k)); [discriminate | now apply IH].
Qed.

Lemma find_greater_cons (h : Z) (t : list Z) (x : Z) (j : nat) :
  (exists m, (m < j)%nat /\ x < at_ t m) ->
  find_greater (h :: t) x (S j) = S (find_greater t x j).
Proof.
  induction j as [|j IH]; intros (m & Hm & Hx); [lia |].
  change (find_greater (h :: t) x (S (S j)))
    with (if x <? at_ t j then S j else find_greater (h :: t) x (S j)).
  simpl. destruct (x <? at_ t j) eqn:E; [reflexivity |].
  apply IH. exists m. split; [| assumption].
  apply Z.ltb_ge in E.
  destruct (Nat.eq_dec m j) as [-> | Hne]; lia.
Qed.

(** The scan skips a tail of elements that are not above [x]. *)
Lemma find_greater_skip (x : Z) (b l : list Z) :
  Forall (fun z => z <= x) b ->
  find_greater (l ++ b) x (length (l ++ b)) = find_greater (l ++ b) x (length l).
Proof.
  revert l. induction b as [|z b IH]; intros l Hb.
  - now rewrite app_nil_r.
  - inversion Hb as [|? ? Hz Hb']; subst.
    replace (l ++ z :: b) with ((l ++ [z]) ++ b) by now rewrite <- app_assoc.
    rewrite IH by assumption.
    rewrite length_app, Nat.add_1_r. simpl.
    rewrite <- app_assoc. simpl. rewrite at_middle.
    destruct (x <? z) eqn:E; [apply Z.ltb_lt in E; lia | reflexivity].
Qed.

Lemma find_greater_middle (x y : Z) (a b : list Z) :
  x < y -> Forall (fun z => z <= x) b ->
  find_greater (a ++ y :: b) x (length (a ++ y :: b)) = length a.
Proof.
  intros Hxy Hb.
  replace (a ++ y :: b) with ((a ++ [y]) ++ b) by now rewrite <- app_assoc.
  rewrite find_greater_skip by assumption.
  rewrite length_app, Nat.add_1_r. simpl.
  rewrite <- app_assoc. simpl. rewrite at_middle.
  apply Z.ltb_lt in Hxy. now rewrite Hxy.
Qed.

Lemma iter_swap_cons (h : Z) (t : list Z) (i j : nat) :
  iter_swap (h :: t) (S i) (S j) = h :: iter_swap t i j.
Proof. reflexivity. Qed.

Lemma iter_swap_head (h y : Z) (a b : list Z) :
  iter_swap (h :: a ++ y :: b) 0 (S (length a)) = y :: a ++ h :: b.
Proof.
  unfold iter_swap. rewrite at_cons, at_middle. simpl.
  now rewrite set_nth_middle.
Qed.

Lemma reverse_from_cons (h : Z) (t : list Z) (k : nat) :
  reverse_from (h :: t) (S k) = h :: reverse_from t k.
Proof. reflexivity. Qed.

(** ** One call of next_permutation *)

(** A pivot in the tail is the pivot of the whole vector. *)
Lemma next_permutation_cons (h : Z) (t t' : list Z) :
  next_permutation t = (true, t') ->
  next_permutation (h :: t) = (true, h :: t').
Proof.
  unfold next_permutation.
  destruct (find_ascent t (length t - 1)) as [i|] eqn:E; [| discriminate].
  intros [= <-].
  destruct (find_ascent_Some _ _ _ E) as [Hi Hlt].
  replace (length (h :: t) - 1)%nat with (S (length t - 1)) by (simpl; lia).
  rewrite (find_ascent_cons_Some h _ _ _ E).
  rewrite at_cons. cbv zeta.
  replace (length (h :: t)) with (S (length t)) by reflexivity.
  rewrite find_greater_cons by (exists (S i); split; [lia | assumption]).
  now rewrite iter_swap_cons, reverse_from_cons.
Qed.

Lemma find_ascent_descending (d : list Z) :
  descending d -> find_ascent d (length d - 1) = None.
Proof.
  induction 1 as [|h d Hs IH Hf]; [reflexivity |].
  destruct d as [|y d]; [reflexivity |].
  replace (length (h :: y :: d) - 1)%nat with (S (length (y :: d) - 1))
    by (simpl; lia).
  rewrite (find_ascent_cons_None h _ _ IH).
  inversion Hf as [|? ? Hy _]; subst. unfold at_; simpl.
  destruct (h <? y) eqn:E; [apply Z.ltb_lt in E; lia | reflexivity].
Qed.

(** On a descending vector the call answers [false] and leaves the vector
    ascending. *)
Lemma next_permutation_descending (d : list Z) :
  descending d -> next_permutation d = (false, rev d).
Proof.
  intros H. unfold next_permutation. now rewrite find_ascent_descending.
Qed.

(** With the tail exhausted, the head is exchanged with the least element
    above it and the tail starts again in ascending order. *)
Lemma next_permutation_advance (pre post : list Z) (h h' : Z) :
  ascending (pre ++ h :: h' :: post) ->
  next_permutation (h :: rev (pre ++ h' :: post)) =
  (true, h' :: pre ++ h :: post).
Proof.
  intros Hs.
  apply StronglySorted_app_iff in Hs. destruct Hs as (Hpre & Hhp & Hlow).
  apply StronglySorted_inv in Hhp. destruct Hhp as [Hp Hh].
  assert (Hhh' : h < h') by (inversion Hh; assumption).
  assert (Hd : descending (rev (pre ++ h' :: post))).
  { apply ascending_rev. apply StronglySorted_app_iff.
    repeat split; [assumption | assumption |].
    intros x y Hx Hy. apply Hlow; [assumption | now right]. }
  assert (Hrev : rev (pre ++ h' :: post) = rev post ++ h' :: rev pre).
  { rewrite rev_app_distr. simpl. now rewrite <- app_assoc. }
  assert (Hhead : h < at_ (rev (pre ++ h' :: post)) 0).
  { rewrite Hrev. rewrite Forall_forall in Hh.
    destruct (rev post) as [|z r] eqn:Er; unfold at_; simpl; [assumption |].
    apply Hh. right. apply in_rev. rewrite Er. now left. }
  unfold next_permutation.
  replace (length (h :: rev (pre ++ h' :: post)) - 1)%nat
    with (S (length (rev (pre ++ h' :: post)) - 1)).
  2:{ rewrite Hrev. simpl. rewrite length_app. simpl. lia. }
  rewrite (find_ascent_cons_None h _ _ (find_ascent_descending _ Hd)).
  apply Z.ltb_lt in Hhead. rewrite Hhead. cbv zeta.
  replace (at_ (h :: rev (pre ++ h' :: post)) 0) with h by reflexivity.
  assert (Hj : find_greater (rev post ++ h' :: rev pre) h
                 (length (rev post ++ h' :: rev pre)) = length (rev post)).
  { apply find_greater_middle; [assumption |].
    apply Forall_rev. rewrite Forall_forall. intros z Hz.
    assert (z < h) by (apply Hlow; [assumption | now left]). lia. }
  replace (length (h :: rev (pre ++ h' :: post)))
    with (S (length (rev (pre ++ h' :: post)))) by reflexivity.
  rewrite find_greater_cons.
  2:{ exists O. split; [| now apply Z.ltb_lt].
      rewrite Hrev, length_app. simpl. lia. }
  rewrite Hrev, Hj, iter_swap_head.
  unfold reverse_from. simpl. f_equal.
  rewrite rev_app_distr. simpl. rewrite !rev_involutive.
  now rewrite <- app_assoc.
Qed.

(** ** Runs of next_permutation *)

Lemma chain_lift (h : Z) (t w : list Z) (L : list (list Z)) :
  chain t L w -> chain (h :: t) (map (cons h) L) (h :: w).
Proof.
  induction 1 as [v | v v' w L Hn Hc IH]; simpl.
  - constructor.
  - econstructor; [apply next_permutation_cons; eassumption | assumption].
Qed.

Lemma chain_app (v w v' w' : list Z) (L L' : list (list Z)) :
  chain v L w -> next_permutation w = (true, v') -> chain v' L' w' ->
  chain v (L ++ L') w'.
Proof.
  induction 1 as [v | v v1 w L Hn Hc IH]; intros Hw Hc'; simpl.
  - econstructor; eassumption.
  - econstructor; [eassumption | now apply IH].
Qed.

Lemma chain_first (v w : list Z) (L : list (list Z)) :
  chain v L w -> nth 0 L [] = v.
Proof. destruct 1; reflexivity. Qed.

Lemma chain_last (v w : list Z) (L : list (list Z)) :
  chain v L w -> last L [] = w.
Proof.
  induction 1 as [v | v v' w L Hn Hc IH]; [reflexivity |].
  destruct Hc; simpl in *; assumption.
Qed.

Lemma lex_perms_S (n : nat) (l : list Z) :
  lex_perms (S n) l = flat_map (block n) (selections_aux [] l).
Proof. reflexivity. Qed.

Lemma chain_heads (n : nat) :
  (forall l, length l = n -> ascending l -> chain l (lex_perms n l) (rev l)) ->
  forall post pre h,
    length (pre ++ post) = n -> ascending (pre ++ h :: post) ->
    chain (h :: pre ++ post)
          (flat_map (block n) (selections_aux pre (h :: post)))
          (rev (pre ++ h :: post)).
Proof.
  intros Q. induction post as [|h' post IH]; intros pre h Hlen Hs.
  - simpl. unfold block. simpl.
    rewrite !app_nil_r in *. rewrite rev_app_distr. simpl.
    apply chain_lift. apply Q; [assumption |].
    apply StronglySorted_app_iff in Hs. tauto.
  - change (selections_aux pre (h :: h' :: post))
      with ((h, pre ++ h' :: post) :: selections_aux (pre ++ [h]) (h' :: post)).
    cbn [flat_map]. unfold block at 1. cbn [fst snd].
    assert (Hs' : ascending (pre ++ h' :: post)).
    { apply StronglySorted_app_iff in Hs. destruct Hs as (Hp & Hq & Hpq).
      apply StronglySorted_inv in Hq. destruct Hq as [Hq _].
      apply StronglySorted_app_iff. repeat split; [assumption | assumption |].
      intros x y Hx Hy. apply Hpq; [assumption | now right]. }
    eapply chain_app.
    + apply chain_lift. apply Q; [assumption | exact Hs'].
    + apply next_permutation_advance. exact Hs.
    + specialize (IH (pre ++ [h]) h').
      rewrite <- !app_assoc in IH. simpl in IH.
      apply IH; [| assumption].
      rewrite length_app in *. simpl in *. lia.
Qed.

(** From an ascending vector the calls run through the whole listing and
    stop on the descending vector. *)
Lemma chain_lex_perms (n : nat) (l : list Z) :
  length l = n -> ascending l -> chain l (lex_perms n l) (rev l).
Proof.
  revert l. induction n as [|n IH]; intros l Hlen Hs.
  - destruct l; [constructor | discriminate].
  - destruct l as [|h post]; [discriminate |].
    apply (chain_heads n IH post [] h); [now injection Hlen | assumption].
Qed.

(** ** The listing has [n!] rows *)

Lemma length_flat_map_const {A B : Type} (f : A -> list B) (c : nat) (L : list A) :
  (forall x, In x L -> length (f x) = c) ->
  length (flat_map f L) = (length L * c)%nat.
Proof.
  induction L as [|x L IH]; intros H; simpl; [reflexivity |].
  rewrite length_app, IH.
  - rewrite (H x) by now left. reflexivity.
  - intros y Hy. apply H. now right.
Qed.

Lemma length_selections_aux (pre l : list Z) :
  length (selections_aux pre l) = length l.
Proof.
  revert pre. induction l as [|h l IH]; intros pre; simpl; [| rewrite IH]; reflexivity.
Qed.

Lemma selections_aux_length (pre l : list Z) (p : Z * list Z) :
  In p (selections_aux pre l) -> S (length (snd p)) = length (pre ++ l).
Proof.
  revert pre. induction l as [|h l IH]; intros pre; simpl; [contradiction |].
  intros [<- | Hin].
  - simpl. rewrite !length_app. simpl. lia.
  - apply IH in Hin. rewrite <- app_assoc in Hin. exact Hin.
Qed.

Lemma length_lex_perms (n : nat) (l : list Z) :
  length l = n -> length (lex_perms n l) = fact n.
Proof.
  revert l. induction n as [|n IH]; intros l Hlen; [reflexivity |].
  rewrite lex_perms_S.
  rewrite (length_flat_map_const _ (fact n)).
  - rewrite length_selections_aux, Hlen. simpl. lia.
  - intros p Hp. unfold block. rewrite length_map. apply IH.
    apply selections_aux_length in Hp. simpl in Hp. lia.
Qed.

(** ** Every row is a permutation, and every permutation is a row *)

Lemma selections_aux_perm (pre l : list Z) (p : Z * list Z) :
  In p (selections_aux pre l) -> Permutation (fst p :: snd p) (pre ++ l).
Proof.
  revert pre. induction l as [|h l IH]; intros pre; simpl; [contradiction |].
  intros [<- | Hin].
  - simpl. apply Permutation_middle.
  - apply IH in Hin. rewrite <- app_assoc in Hin. exact Hin.
Qed.

Lemma lex_perms_perm (n : nat) (l p : list Z) :
  length l = n -> In p (lex_perms n l) -> Permutation p l.
Proof.
  revert l p. induction n as [|n IH]; intros l p Hlen Hin.
  - destruct l; [| discriminate]. destruct Hin as [<- | []]. constructor.
  - rewrite lex_perms_S in Hin. apply in_flat_map in Hin.
    destruct Hin as ([h r] & Hsel & Hp). unfold block in Hp. simpl in Hp.
    apply in_map_iff in Hp. destruct Hp as (q & <- & Hq).
    pose proof (selections_aux_length _ _ _ Hsel) as Hl.
    pose proof (selections_aux_perm _ _ _ Hsel) as Hperm.
    simpl in Hl, Hperm.
    etransitivity; [| exact Hperm].
    constructor. apply IH; [lia | assumption].
Qed.

Lemma selections_aux_in (pre a b : list Z) (x : Z) :
  In (x, pre ++ a ++ b) (selections_aux pre (a ++ x :: b)).
Proof.
  revert pre. induction a as [|h a IH]; intros pre; simpl.
  - now left.
  - right. specialize (IH (pre ++ [h])).
    rewrite <- app_assoc in IH. exact IH.
Qed.

Lemma lex_perms_complete (n : nat) (l p : list Z) :
  length l = n -> Permutation p l -> In p (lex_perms n l).
Proof.
  revert l p. induction n as [|n IH]; intros l p Hlen Hperm.
  - destruct l; [| discriminate].
    apply Permutation_sym, Permutation_nil in Hperm. subst. now left.
  - destruct p as [|x p].
    { apply Permutation_length in Hperm. simpl in Hperm. lia. }
    assert (Hx : In x l) by (eapply Permutation_in; [exact Hperm | now left]).
    apply in_split in Hx. destruct Hx as (a & b & ->).
    apply Permutation_cons_app_inv in Hperm.
    rewrite lex_perms_S. apply in_flat_map.
    exists (x, a ++ b). split.
    + apply (selections_aux_in [] a b x).
    + unfold block. simpl. apply in_map. apply IH; [| assumption].
      rewrite length_app in *. simpl in Hlen. lia.
Qed.

(** ** The listing is strictly increasing *)

Lemma lex_lt_irrefl (a : list Z) : ~ lex_lt a a.
Proof. induction a as [|x a IH]; simpl; [tauto | intros [H | [_ H]]; [lia | tauto]]. Qed.

Lemma StronglySorted_NoDup {A : Type} (R : A -> A -> Prop) (l : list A) :
  (forall x, ~ R x x) -> StronglySorted R l -> NoDup l.
Proof.
  intros Hirr. induction 1 as [|h l Hs IH Hf]; constructor; [| assumption].
  intros Hin. rewrite Forall_forall in Hf. exact (Hirr h (Hf h Hin)).
Qed.

Lemma ascending_remove (pre post : list Z) (h : Z) :
  ascending (pre ++ h :: post) -> ascending (pre ++ post).
Proof.
  intros Hs. apply StronglySorted_app_iff in Hs. destruct Hs as (Hp & Hq & Hpq).
  apply StronglySorted_inv in Hq. destruct Hq as [Hq _].
  apply StronglySorted_app_iff. repeat split; [assumption | assumption |].
  intros x y Hx Hy. apply Hpq; [assumption | now right].
Qed.

Lemma map_cons_sorted (h : Z) (L : list (list Z)) :
  StronglySorted lex_lt L -> StronglySorted lex_lt (map (cons h) L).
Proof.
  induction 1 as [|a L Hs IH Hf]; simpl; constructor; [assumption |].
  rewrite Forall_map. rewrite Forall_forall in *. intros b Hb.
  simpl. right. split; [reflexivity | now apply Hf].
Qed.

Lemma block_heads (n : nat) (l pre y : list Z) :
  In y (flat_map (block n) (selections_aux pre l)) ->
  exists h r, y = h :: r /\ In h l.
Proof.
  revert pre. induction l as [|x l IH]; intros pre; simpl; [contradiction |].
  intros Hin. apply in_app_or in Hin. destruct Hin as [Hin | Hin].
  - unfold block in Hin. simpl in Hin. apply in_map_iff in Hin.
    destruct Hin as (r & <- & _). exists x, r. split; [reflexivity | now left].
  - apply IH in Hin. destruct Hin as (h & r & -> & Hh).
    exists h, r. split; [reflexivity | now right].
Qed.

Lemma blocks_sorted (n : nat) :
  (forall l, length l = n -> ascending l -> StronglySorted lex_lt (lex_perms n l)) ->
  forall l pre,
    length (pre ++ l) = S n -> ascending (pre ++ l) ->
    StronglySorted lex_lt (flat_map (block n) (selections_aux pre l)).
Proof.
  intros Q. induction l as [|h post IH]; intros pre Hlen Hs; simpl.
  - constructor.
  - apply StronglySorted_app_iff. repeat split.
    + unfold block. simpl. apply map_cons_sorted. apply Q.
      * rewrite length_app in *. simpl in Hlen. lia.
      * eapply ascending_remove. exact Hs.
    + apply IH; rewrite <- app_assoc; assumption.
    + intros x y Hx Hy. unfold block in Hx. simpl in Hx.
      apply in_map_iff in Hx. destruct Hx as (q & <- & _).
      apply block_heads in Hy. destruct Hy as (h' & r & -> & Hh').
      simpl. left.
      apply StronglySorted_app_iff in Hs. destruct Hs as (_ & Hq & _).
      apply StronglySorted_inv in Hq. destruct Hq as [_ Hf].
      rewrite Forall_forall in Hf. now apply Hf.
Qed.

Lemma lex_perms_sorted (n : nat) (l : list Z) :
  length l = n -> ascending l -> StronglySorted lex_lt (lex_perms n l).
Proof.
  revert l. induction n as [|n IH]; intros l Hlen Hs.
  - simpl. repeat constructor.
  - rewrite lex_perms_S. now apply (blocks_sorted n IH l []).
Qed.

(** ** The vector [1..k] *)

Lemma iota_S (k : nat) : iota (S k) = iota k ++ [Z.of_nat (S k)].
Proof. unfold iota. now rewrite seq_S, map_app. Qed.

Lemma length_iota (k : nat) : length (iota k) = k.
Proof. unfold iota. now rewrite length_map, length_seq. Qed.

Lemma ascending_iota (k : nat) : ascending (iota k).
Proof.
  unfold iota, ascending. generalize 1%nat as s.
  induction k as [|k IH]; intros s; simpl; constructor; [apply IH |].
  rewrite Forall_map, Forall_forall. intros x Hx.
  apply in_seq in Hx. lia.
Qed.

Lemma nth_iota (N k : nat) : (k < N)%nat -> nth k (iota N) 0 = Z.of_nat (S k).
Proof.
  intros H. unfold iota.
  change 0 with (Z.of_nat 0). rewrite map_nth, seq_nth by assumption.
  reflexivity.
Qed.

Lemma nth_rev_iota (N k : nat) :
  (k < N)%nat -> nth k (rev (iota N)) 0 = Z.of_nat N - Z.of_nat k.
Proof.
  intros H. rewrite rev_nth by (rewrite length_iota; assumption).
  rewrite length_iota, nth_iota by lia. lia.
Qed.

(** ** The loops of permutations *)

Lemma sum_fact_S (m k : nat) :
  sum_fact m (S k) = (fact (S m) + sum_fact (S m) k)%nat.
Proof. reflexivity. Qed.

Section Loops.

Variable pending : nat -> bool.

(** A do-while loop started where a run starts makes one pass for each
    vector of the run, unless a check finds an interrupt. *)
Lemma do_while_chain (v w : list Z) (L : list (list Z)) :
  chain v L w ->
  forall fuel i n data tick v_end,
    next_permutation w = (false, v_end) ->
    (length L <= fuel)%nat ->
    do_while pending fuel i n (mkState v data tick) =
    if existsb pending (seq tick (length L)) then Interrupted
    else Done (mkState v_end (if i =? n then data ++ L else data)
                       (tick + length L)).
Proof.
  induction 1 as [v | v v' w L Hn Hc IH];
    intros fuel i n data tick v_end Hend Hfuel;
    (destruct fuel as [|fuel]; [simpl in Hfuel; lia |]);
    cbn [do_while st_v st_data st_tick length seq existsb];
    unfold checkUserInterrupt; destruct (pending tick); cbn [bind orb];
    try reflexivity.
  - rewrite Hend. now rewrite Nat.add_1_r.
  - rewrite Hn. rewrite (IH _ _ _ _ _ _ Hend) by (simpl in Hfuel; lia).
    destruct (existsb pending (seq (S tick) (length L))); [reflexivity |].
    rewrite Nat.add_succ_r. destruct (i =? n); [| reflexivity].
    now rewrite <- app_assoc.
Qed.

Lemma for_loop_run (fuel : nat) :
  forall k m tick,
    (fact (m + k) <= fuel)%nat -> Z.of_nat (m + k) <= INT_MAX ->
    for_loop pending fuel k (Z.of_nat (S m)) (Z.of_nat (m + k))
             (mkState (iota m) [] tick) =
    if existsb pending (seq tick (sum_fact m k)) then Interrupted
    else match k with
         | O => Done (mkState (iota m) [] tick)
         | S _ =>
             if Z.of_nat (m + k) <? INT_MAX then
               Done (mkState (iota (m + k)) (lex_perms (m + k) (iota (m + k)))
                             (tick + sum_fact m k))
             else Undefined
         end.
Proof.
  induction k as [|k IH]; intros m tick Hfuel Hint.
  - reflexivity.
  - cbn [for_loop st_v st_data st_tick]. rewrite <- iota_S.
    rewrite (do_while_chain _ _ _
               (chain_lex_perms (S m) (iota (S m)) (length_iota _) (ascending_iota _))
               fuel _ _ _ _ (iota (S m))).
    2:{ rewrite next_permutation_descending
          by (apply ascending_rev, ascending_iota).
        now rewrite rev_involutive. }
    2:{ rewrite length_lex_perms by apply length_iota.
        etransitivity; [| exact Hfuel]. apply fact_le. lia. }
    rewrite length_lex_perms by apply length_iota.
    rewrite sum_fact_S, seq_app, existsb_app.
    destruct (existsb pending (seq tick (fact (S m)))); cbn [bind orb];
      [reflexivity |].
    replace (m + S k)%nat with (S m + k)%nat in * by lia.
    unfold incr. destruct k as [|k'].
    + change (sum_fact (S m) 0) with O. cbn [seq existsb].
      rewrite !Nat.add_0_r. rewrite Z.eqb_refl. simpl app.
      destruct (Z.of_nat (S m) <? INT_MAX); reflexivity.
    + replace (Z.of_nat (S m) =? Z.of_nat (S m + S k')) with false
        by (symmetry; apply Z.eqb_neq; lia).
      replace (Z.of_nat (S m) <? INT_MAX) with true
        by (symmetry; apply Z.ltb_lt; lia).
      cbn [bind].
      replace (Z.of_nat (S m) + 1) with (Z.of_nat (S (S m))) by lia.
      rewrite IH by assumption.
      destruct (existsb pending (seq (tick + fact (S m)) (sum_fact (S m) (S k'))));
        [reflexivity |].
      now rewrite Nat.add_assoc.
Qed.

End Loops.

(** ** The copy into the matrix *)

Lemma to_int_id (z : Z) : INT_MIN <= z <= INT_MAX -> to_int z = z.
Proof.
  unfold to_int, INT_MIN, INT_MAX. intros H.
  rewrite Z.mod_small by lia. lia.
Qed.

Lemma to_int_range (z : Z) : INT_MIN <= to_int z <= INT_MAX.
Proof.
  unfold to_int, INT_MIN, INT_MAX.
  pose proof (Z.mod_pos_bound (z + 2147483648) 4294967296 ltac:(lia)). lia.
Qed.

(** A write that is done was inside the matrix, and keeps its shape. *)
Lemma mat_set_Done (m m' : NumericMatrix) (i j : Z) (x : Z) :
  mat_set m i j x = Done m' ->
  0 <= i < nrow m /\ 0 <= j < ncol m /\ nrow m' = nrow m /\ ncol m' = ncol m.
Proof.
  unfold mat_set.
  destruct (0 <=? i) eqn:Ei0; [| discriminate].
  destruct (i <? nrow m) eqn:Ei; [| discriminate].
  destruct (0 <=? j) eqn:Ej0; [| discriminate].
  destruct (j <? ncol m) eqn:Ej; [| discriminate].
  cbn [andb]. intros [= <-]. cbn [nrow ncol].
  apply Z.leb_le in Ei0, Ej0. apply Z.ltb_lt in Ei, Ej. lia.
Qed.

(** A read that is done was inside [data] and inside its row. *)
Lemma data_at_Done (data : list (list Z)) (i j : Z) (x : Z) :
  data_at data i j = Done x ->
  0 <= i /\ 0 <= j /\ (Z.to_nat i < length data)%nat /\
  (Z.to_nat j < length (nth (Z.to_nat i) data []))%nat.
Proof.
  unfold data_at.
  destruct (i <? 0) eqn:Ei; [discriminate |].
  destruct (j <? 0) eqn:Ej; [discriminate |]. cbn [orb].
  destruct (nth_error data (Z.to_nat i)) as [row|] eqn:Er; [| discriminate].
  destruct (nth_error row (Z.to_nat j)) as [y|] eqn:Ey; [| discriminate].
  intros _. apply Z.ltb_ge in Ei, Ej. repeat split; try assumption.
  - apply nth_error_Some. congruence.
  - rewrite (nth_error_nth _ _ [] Er). apply nth_error_Some. congruence.
Qed.

Lemma data_at_of_nat (data : list (list Z)) (i j : nat) :
  data_at data (Z.of_nat i) (Z.of_nat j) =
  match nth_error data i with
  | Some row => match nth_error row j with
                | Some x => Done x
                | None => Undefined
                end
  | None => Undefined
  end.
Proof.
  unfold data_at.
  replace (Z.of_nat i <? 0) with false by (symmetry; apply Z.ltb_ge; lia).
  replace (Z.of_nat j <? 0) with false by (symmetry; apply Z.ltb_ge; lia).
  now rewrite !Nat2Z.id.
Qed.

Lemma copy_row_ok (data : list (list Z)) (i : nat) (row : list Z) :
  nth_error data i = Some row ->
  forall k done todo r c A B,
    row = done ++ todo -> length todo = k -> length A = i ->
    Z.of_nat i < r -> c = Z.of_nat (length done + k) -> c <= INT_MAX ->
    copy_row k data (Z.of_nat i) (Z.of_nat (length done))
             (mkMatrix r c (A ++ (done ++ repeat 0 k) :: B)) =
    Done (mkMatrix r c (A ++ row :: B)).
Proof.
  intros Hrow. induction k as [|k IH];
    intros done todo r c A B Hsplit Hk HA Hr Hc Hint.
  - destruct todo; [| discriminate]. subst row. simpl. now rewrite !app_nil_r.
  - destruct todo as [|x todo]; [discriminate |].
    assert (Hx : nth_error row (length done) = Some x).
    { rewrite Hsplit, nth_error_app2, Nat.sub_diag by lia. reflexivity. }
    cbn [copy_row]. rewrite data_at_of_nat, Hrow, Hx. cbn [bind].
    unfold mat_set. cbn [nrow ncol cells].
    replace (0 <=? Z.of_nat i) with true by (symmetry; apply Z.leb_le; lia).
    replace (Z.of_nat i <? r) with true by (symmetry; apply Z.ltb_lt; lia).
    replace (0 <=? Z.of_nat (length done)) with true
      by (symmetry; apply Z.leb_le; lia).
    replace (Z.of_nat (length done) <? c) with true
      by (symmetry; apply Z.ltb_lt; lia).
    cbn [andb bind]. rewrite !Nat2Z.id. subst i.
    rewrite nth_middle. cbn [repeat].
    rewrite !set_nth_middle.
    unfold incr.
    replace (Z.of_nat (length done) <? INT_MAX) with true
      by (symmetry; apply Z.ltb_lt; lia).
    cbn [bind].
    replace (done ++ x :: repeat 0 k) with ((done ++ [x]) ++ repeat 0 k)
      by now rewrite <- app_assoc.
    replace (Z.of_nat (length done) + 1) with (Z.of_nat (length (done ++ [x])))
      by (rewrite length_app; simpl; lia).
    apply (IH (done ++ [x]) todo).
    + now rewrite <- app_assoc.
    + now injection Hk.
    + reflexivity.
    + assumption.
    + rewrite length_app. simpl. lia.
    + assumption.
Qed.

(** The copy of [data] into a matrix of [H] rows: complete when [data] has
    [H] rows, and outside the matrix at row [H] when it has more. *)
Lemma copy_rows_run (w H : nat) :
  (1 <= w)%nat -> Z.of_nat w <= INT_MAX -> Z.of_nat H <= INT_MAX ->
  forall k done todo,
    length todo = k -> Forall (fun row => length row = w) todo ->
    (length done <= H)%nat ->
    copy_rows k (done ++ todo) (Z.of_nat (length done)) w
              (mkMatrix (Z.of_nat H) (Z.of_nat w)
                        (done ++ repeat (repeat 0 w) (H - length done))) =
    if (length done + k <=? H)%nat then
      Done (mkMatrix (Z.of_nat H) (Z.of_nat w)
                     (done ++ todo ++ repeat (repeat 0 w) (H - length done - k)))
    else Undefined.
Proof.
  intros Hw1 Hw HH.
  induction k as [|k IH]; intros done todo Hk Hrows Hdone.
  - destruct todo; [| discriminate].
    replace (length done + 0 <=? H)%nat with true
      by (symmetry; apply Nat.leb_le; lia).
    cbn [copy_rows app]. now rewrite Nat.sub_0_r.
  - destruct todo as [|row todo]; [discriminate |].
    apply Forall_cons_iff in Hrows. destruct Hrows as [Hrow Hrows'].
    injection Hk as Hk.
    assert (Hnth : nth_error (done ++ row :: todo) (length done) = Some row).
    { rewrite nth_error_app2, Nat.sub_diag by lia. reflexivity. }
    cbn [copy_rows].
    destruct (Nat.eq_dec (length done) H) as [Heq | Hne].
    + replace (length done + S k <=? H)%nat with false
        by (symmetry; apply Nat.leb_gt; lia).
      destruct w as [|w']; [lia |].
      destruct row as [|x row]; [discriminate |].
      cbn [copy_row]. rewrite (data_at_of_nat _ (length done) 0), Hnth.
      cbn [nth_error bind]. unfold mat_set. cbn [nrow ncol cells].
      replace (Z.of_nat (length done) <? Z.of_nat H) with false
        by (symmetry; apply Z.ltb_ge; lia).
      rewrite andb_false_r. reflexivity.
    + replace (H - length done)%nat with (S (H - S (length done))) by lia.
      cbn [repeat].
      rewrite (copy_row_ok _ _ _ Hnth w [] row); try reflexivity;
        [| assumption | lia | assumption].
      cbn [bind]. unfold incr.
      replace (Z.of_nat (length done) <? INT_MAX) with true
        by (symmetry; apply Z.ltb_lt; lia).
      cbn [bind].
      replace (done ++ row :: todo) with ((done ++ [row]) ++ todo)
        by now rewrite <- app_assoc.
      replace (done ++ row :: repeat (repeat 0 w) (H - S (length done)))
        with ((done ++ [row]) ++
              repeat (repeat 0 w) (H - length (done ++ [row])))
        by (rewrite <- app_assoc, length_app; simpl;
            now rewrite Nat.add_1_r).
      replace (Z.of_nat (length done) + 1) with (Z.of_nat (length (done ++ [row])))
        by (rewrite length_app; simpl; lia).
      rewrite IH; [| assumption | assumption | rewrite length_app; simpl; lia].
      rewrite length_app. cbn [length].
      replace (length done + 1 + k <=? H)%nat
        with (length done + S k <=? H)%nat
        by (f_equal; lia).
      destruct (length done + S k <=? H)%nat; [| reflexivity].
      rewrite <- !app_assoc. cbn [app].
      replace (S (H - S (length done)) - S k)%nat
        with (H - (length done + 1) - k)%nat by lia.
      reflexivity.
Qed.

(** A rectangular, non-empty [data] whose sizes fit an [int] is copied as
    it is. *)
Lemma to_matrix_rect (data : list (list Z)) (w : nat) :
  data <> [] -> Forall (fun row => length row = w) data ->
  (1 <= w)%nat -> Z.of_nat w <= INT_MAX -> Z.of_nat (length data) <= INT_MAX ->
  to_matrix data =
  Done (mkMatrix (Z.of_nat (length data)) (Z.of_nat w) data).
Proof.
  intros Hne Hrows Hw1 Hw Hh. unfold to_matrix.
  destruct data as [|row0 rest] eqn:E; [congruence |].
  cbn [nth_error]. rewrite <- E in *.
  assert (Hw0 : length row0 = w).
  { rewrite E in Hrows. now inversion Hrows. }
  rewrite Hw0.
  rewrite !to_int_id by (unfold INT_MIN; lia).
  replace (Z.of_nat (length data) <? 0) with false
    by (symmetry; apply Z.ltb_ge; lia).
  replace (Z.of_nat w <? 0) with false by (symmetry; apply Z.ltb_ge; lia).
  cbn [orb]. rewrite !Nat2Z.id.
  pose proof (copy_rows_run w (length data) Hw1 Hw Hh (length data) [] data
                eq_refl Hrows (Nat.le_0_l _)) as Hrun.
  cbn [app length] in Hrun. rewrite Nat.sub_0_r in Hrun.
  change (Z.of_nat 0) with 0 in Hrun. rewrite Hrun.
  rewrite Nat.leb_refl, Nat.sub_diag. cbn [repeat]. now rewrite app_nil_r.
Qed.

(** A rectangular [data] with more rows than an [int] counts, whose
    converted row count is not negative, is copied past the rows of the
    matrix. *)
Lemma to_matrix_overrun (data : list (list Z)) (w : nat) :
  data <> [] -> Forall (fun row => length row = w) data ->
  (1 <= w)%nat -> Z.of_nat w <= INT_MAX ->
  INT_MAX < Z.of_nat (length data) ->
  0 <= to_int (Z.of_nat (length data)) ->
  to_matrix data = Undefined.
Proof.
  intros Hne Hrows Hw1 Hw Hbig Hpos. unfold to_matrix.
  destruct data as [|row0 rest] eqn:E; [congruence |].
  cbn [nth_error]. rewrite <- E in *.
  assert (Hw0 : length row0 = w).
  { rewrite E in Hrows. now inversion Hrows. }
  rewrite Hw0.
  rewrite (to_int_id (Z.of_nat w)) by (unfold INT_MIN; lia).
  pose proof (to_int_range (Z.of_nat (length data))) as Hrange.
  set (h := to_int (Z.of_nat (length data))) in *.
  replace (h <? 0) with false by (symmetry; apply Z.ltb_ge; lia).
  replace (Z.of_nat w <? 0) with false by (symmetry; apply Z.ltb_ge; lia).
  cbn [orb]. rewrite Nat2Z.id.
  assert (HH : Z.of_nat (Z.to_nat h) <= INT_MAX) by lia.
  pose proof (copy_rows_run w (Z.to_nat h) Hw1 Hw HH (length data) [] data
                eq_refl Hrows (Nat.le_0_l _)) as Hrun.
  cbn [app length] in Hrun. rewrite Nat.sub_0_r in Hrun.
  change (Z.of_nat 0) with 0 in Hrun.
  rewrite Z2Nat.id in Hrun by lia. rewrite Hrun.
  replace (0 + length data <=? Z.to_nat h)%nat with false; [reflexivity |].
  symmetry. apply Nat.leb_gt. lia.
Qed.

(** ** The two halves of permutations *)

Lemma fact_Z (n : nat) : Z.of_nat (fact n) = Zfact n.
Proof.
  induction n as [|n IH]; [reflexivity |].
  change (fact (S n)) with (S n * fact n)%nat.
  rewrite Nat2Z.inj_mul, IH. reflexivity.
Qed.

(** Up to [12!] a factorial fits an [int]; [13!] does not, and converted
    to [int] it is a smaller, positive number. *)
Lemma fact_fits_int (N : nat) : (N <= 12)%nat -> Z.of_nat (fact N) <= INT_MAX.
Proof.
  intros H. rewrite fact_Z.
  do 13 (destruct N as [|N]; [vm_compute; discriminate |]). lia.
Qed.

Lemma fact_13_Z : Z.of_nat (fact 13) = 6227020800.
Proof. rewrite fact_Z. reflexivity. Qed.

Lemma fact_exceeds_int (N : nat) : (13 <= N)%nat -> INT_MAX < Z.of_nat (fact N).
Proof.
  intros H. apply fact_le in H. apply Nat2Z.inj_le in H.
  rewrite fact_13_Z in H. unfold INT_MAX. lia.
Qed.

Lemma record_rows_run (pending : nat -> bool) (fuel N : nat) (tick : nat) :
  (fact N <= fuel)%nat -> Z.of_nat N <= INT_MAX ->
  record_rows pending fuel (Z.of_nat N) tick =
  if existsb pending (seq tick (sum_fact 0 N)) then Interrupted
  else match N with
       | O => Done (mkState [] [] tick)
       | S _ =>
           if Z.of_nat N <? INT_MAX then
             Done (mkState (iota N) (lex_perms N (iota N)) (tick + sum_fact 0 N))
           else Undefined
       end.
Proof.
  intros Hfuel Hint. unfold record_rows. rewrite Nat2Z.id.
  exact (for_loop_run pending fuel N 0 tick Hfuel Hint).
Qed.

Lemma lex_perms_rect (N : nat) :
  Forall (fun row => length row = N) (lex_perms N (iota N)).
Proof.
  rewrite Forall_forall. intros p Hp.
  apply lex_perms_perm in Hp; [| apply length_iota].
  apply Permutation_length in Hp. now rewrite length_iota in Hp.
Qed.

Lemma lex_perms_nonempty (N : nat) : lex_perms N (iota N) <> [].
Proof.
  intros H. apply (f_equal (@length _)) in H.
  rewrite length_lex_perms in H by apply length_iota.
  simpl in H. pose proof (lt_O_fact N). lia.
Qed.

(** The whole function on [1 <= n <= 12]: the interrupt if one is pending
    at one of the checks, and otherwise the listing as an [n!] by [n]
    matrix. *)
Lemma permutations_run (pending : nat -> bool) (fuel N : nat) (tick : nat) :
  (1 <= N <= 12)%nat -> (fact N <= fuel)%nat ->
  permutations pending fuel (Z.of_nat N) tick =
  if existsb pending (seq tick (sum_fact 0 N)) then Interrupted
  else Done (mkMatrix (Z.of_nat (fact N)) (Z.of_nat N) (lex_perms N (iota N)),
             (tick + sum_fact 0 N)%nat).
Proof.
  intros HN Hfuel. unfold permutations.
  rewrite record_rows_run by (assumption || (unfold INT_MAX; lia)).
  destruct (existsb pending (seq tick (sum_fact 0 N))); [reflexivity |].
  destruct N as [|N']; [lia |].
  replace (Z.of_nat (S N') <? INT_MAX) with true
    by (symmetry; apply Z.ltb_lt; unfold INT_MAX; lia).
  cbn [bind st_data st_tick].
  pose proof (fact_fits_int (S N') ltac:(lia)) as Hfit.
  rewrite (to_matrix_rect _ (S N') (lex_perms_nonempty _) (lex_perms_rect _));
    try (unfold INT_MAX; lia).
  - rewrite length_lex_perms by apply length_iota. reflexivity.
  - now rewrite length_lex_perms by apply length_iota.
Qed.


(** From [n = 13], absent an interrupt, the rows recorded are more than
    the matrix is given: the copy leaves the matrix. *)
Lemma permutations_overrun (pending : nat -> bool) (fuel N : nat) (tick : nat) :
  (13 <= N)%nat -> Z.of_nat N < INT_MAX -> (fact N <= fuel)%nat ->
  (forall k, pending k = false) ->
  0 <= to_int (Z.of_nat (fact N)) ->
  record_rows pending fuel (Z.of_nat N) tick =
  Done (mkState (iota N) (lex_perms N (iota N)) (tick + sum_fact 0 N)) /\
  to_matrix (lex_perms N (iota N)) = Undefined /\
  permutations pending fuel (Z.of_nat N) tick = Undefined.
Proof.
  intros HN Hint Hfuel Hq Hpos.
  assert (Hrec : record_rows pending fuel (Z.of_nat N) tick =
                 Done (mkState (iota N) (lex_perms N (iota N))
                               (tick + sum_fact 0 N))).
  { rewrite record_rows_run by (assumption || lia).
    replace (existsb pending (seq tick (sum_fact 0 N))) with false.
    2:{ symmetry. induction (seq tick (sum_fact 0 N)) as [|a l IHl];
          [reflexivity | simpl; now rewrite Hq]. }
    destruct N as [|N']; [lia |].
    now replace (Z.of_nat (S N') <? INT_MAX) with true
      by (symmetry; apply Z.ltb_lt; lia). }
  assert (Hmat : to_matrix (lex_perms N (iota N)) = Undefined).
  { apply (to_matrix_overrun _ N (lex_perms_nonempty _) (lex_perms_rect _));
      rewrite ?length_lex_perms by apply length_iota;
      try lia; try assumption.
    now apply fact_exceeds_int. }
  split; [exact Hrec |]. split; [exact Hmat |].
  unfold permutations. rewrite Hrec. cbn [bind st_data]. now rewrite Hmat.
Qed.

(** ** The order of floats and max_element *)

Example f32_valid :
  forallb (valid_binary 24 128) [f32_3_0; f32_1_5; f32_9_2; f32_m4_0; f32_1_0] = true.
Proof. reflexivity. Qed.

Example maxC_sample : maxC [f32_3_0; f32_1_5; f32_9_2; f32_m4_0] = Done f32_9_2.
Proof. reflexivity. Qed.

Ltac float_order :=
  repeat match goal with
         | s : bool |- _ => destruct s
         end;
  cbn; try congruence;
  change (Pos.compare_cont Eq) with Pos.compare;
  repeat match goal with
         | |- context [Z.compare ?a ?b] => destruct (Z.compare_spec a b)
         | |- context [Pos.compare ?a ?b] => destruct (Pos.compare_spec a b)
         end;
  cbn; try congruence; try lia.

Lemma SFltb_irrefl (x : spec_float) : SFltb x x = false.
Proof. unfold SFltb, SFcompare. destruct x; float_order. Qed.

Lemma SFltb_trans (x y z : spec_float) :
  SFltb x y = true -> SFltb y z = true -> SFltb x z = true.
Proof. unfold SFltb, SFcompare. destruct x, y, z; float_order. Qed.

Lemma SFltb_false_leb (x y : spec_float) :
  is_nan x = false -> is_nan y = false -> SFltb x y = false -> SFleb y x = true.
Proof. unfold SFltb, SFleb, SFcompare. destruct x, y; float_order. Qed.

Lemma max_element_loop_spec (v : list spec_float) :
  forall k first result,
    (first + S k = length v)%nat -> (result <= first)%nat ->
    (forall i, (i <= first)%nat -> SFltb (fat v result) (fat v i) = false) ->
    (max_element_loop v k first result < length v)%nat /\
    forall i, (i < length v)%nat ->
              SFltb (fat v (max_element_loop v k first result)) (fat v i) = false.
Proof.
  induction k as [|k IH]; intros first result Hlen Hres Hmax; cbn [max_element_loop].
  - split; [lia |]. intros i Hi. apply Hmax. lia.
  - cbv zeta. apply IH; [lia | destruct (SFltb _ _); lia |].
    intros i Hi.
    destruct (SFltb (fat v result) (fat v (S first))) eqn:E.
    + destruct (Nat.eq_dec i (S first)) as [-> | Hne]; [apply SFltb_irrefl |].
      destruct (SFltb (fat v (S first)) (fat v i)) eqn:E'; [| reflexivity].
      rewrite <- (Hmax i) by lia. symmetry. eapply SFltb_trans; eassumption.
    + destruct (Nat.eq_dec i (S first)) as [-> | Hne]; [assumption |].
      apply Hmax. lia.
Qed.

(** On a non-empty vector [maxC] returns an element that is below no
    element. *)
Lemma maxC_not_below (v : list spec_float) :
  v <> [] ->
  exists r, maxC v = Done r /\ In r v /\ forall x, In x v -> SFltb r x = false.
Proof.
  intros Hne. unfold maxC, max_element.
  destruct v as [|x0 v'] eqn:E; [congruence |]. rewrite <- E.
  destruct (max_element_loop_spec v (length v - 1) 0 0) as [Hlt Hmax].
  - rewrite E. simpl. lia.
  - lia.
  - intros i Hi. replace i with O by lia. apply SFltb_irrefl.
  - destruct (nth_error v (max_element_loop v (length v - 1) 0 0)) as [r|] eqn:En.
    + exists r. split; [reflexivity |]. split; [eapply nth_error_In; eassumption |].
      intros x Hx. apply (In_nth _ _ S754_nan) in Hx. destruct Hx as (i & Hi & <-).
      apply (nth_error_nth _ _ S754_nan) in En.
      specialize (Hmax i Hi). unfold fat in Hmax. now rewrite En in Hmax.
    + apply nth_error_None in En. lia.
Qed.

(** ** The direct enumeration *)

Lemma enumerate_loop_do_while (pending : nat -> bool) (n : Z) (fuel : nat) (s : state) :
  enumerate_loop pending fuel s = do_while pending fuel n n s.
Proof.
  revert s. induction fuel as [|fuel IH]; intros s; [reflexivity |].
  cbn [enumerate_loop do_while]. rewrite Z.eqb_refl.
  destruct (checkUserInterrupt pending (st_tick s)); cbn [bind]; try reflexivity.
  destruct (next_permutation (st_v s)) as [[|] v']; [apply IH | reflexivity].
Qed.

Lemma existsb_quiet (pending : nat -> bool) (l : list nat) :
  quiet pending -> existsb pending l = false.
Proof. intros H. induction l; simpl; [| rewrite H]; auto. Qed.


(** The loops on any [int] [n]; for [n <= 0] the body never runs, and for
    [n = INT_MAX] the last increment of the counter overflows. *)
Lemma record_rows_any (pending : nat -> bool) (fuel : nat) (n : Z) (tick : nat) :
  n <= INT_MAX -> (fact (Z.to_nat n) <= fuel)%nat ->
  record_rows pending fuel n tick =
  if existsb pending (seq tick (sum_fact 0 (Z.to_nat n))) then Interrupted
  else match Z.to_nat n with
       | O => Done (mkState [] [] tick)
       | S _ =>
           if n <? INT_MAX then
             Done (mkState (iota (Z.to_nat n))
                           (lex_perms (Z.to_nat n) (iota (Z.to_nat n)))
                           (tick + sum_fact 0 (Z.to_nat n)))
           else Undefined
       end.
Proof.
  intros Hint Hfuel. destruct (Z.le_gt_cases 0 n) as [Hn | Hn].
  - pose proof (record_rows_run pending fuel (Z.to_nat n) tick Hfuel) as Hrun.
    rewrite Z2Nat.id in Hrun by assumption. now apply Hrun.
  - unfold record_rows. replace (Z.to_nat n) with O by lia. reflexivity.
Qed.

Lemma permutations_direct_run (pending : nat -> bool) (fuel N : nat) (tick : nat) :
  (fact N <= fuel)%nat ->
  permutations_direct pending fuel (Z.of_nat N) tick =
  if existsb pending (seq tick (fact N)) then Interrupted
  else Done (lex_perms N (iota N), (tick + fact N)%nat).
Proof.
  intros Hfuel. unfold permutations_direct.
  rewrite Nat2Z.id, (enumerate_loop_do_while pending (Z.of_nat N)).
  rewrite (do_while_chain pending _ _ _
             (chain_lex_perms N (iota N) (length_iota _) (ascending_iota _))
             fuel _ _ _ _ (iota N)).
  - rewrite length_lex_perms by apply length_iota.
    destruct (existsb pending (seq tick (fact N))); [reflexivity |].
    rewrite Z.eqb_refl. reflexivity.
  - rewrite next_permutation_descending by (apply ascending_rev, ascending_iota).
    now rewrite rev_involutive.
  - now rewrite length_lex_perms by apply length_iota.
Qed.


(** Absent an interrupt, [permutations] on [1 <= n <= 12] returns the
    listing. *)
Lemma permutations_quiet (pending : nat -> bool) (fuel : nat) (n : Z) (tick : nat) :
  1 <= n -> n <= 12 -> quiet pending -> (fact (Z.to_nat n) <= fuel)%nat ->
  permutations pending fuel n tick =
  Done (mkMatrix (Z.of_nat (fact (Z.to_nat n))) n
                 (lex_perms (Z.to_nat n) (iota (Z.to_nat n))),
        (tick + sum_fact 0 (Z.to_nat n))%nat).
Proof.
  intros Hn Hn12 Hq Hfuel.
  pose proof (permutations_run pending fuel (Z.to_nat n) tick ltac:(lia) Hfuel)
    as Hrun.
  rewrite Z2Nat.id in Hrun by lia. rewrite Hrun.
  now rewrite existsb_quiet.
Qed.

(** At [n = 13], absent an interrupt and with the fuel for [13!] passes:
    the loops record [13!] rows, the matrix is given [13! - 2^32] rows, and
    the copy leaves it. *)
Lemma permutations_13 :
  record_rows no_interrupt (fact 13) 13 0 =
  Done (mkState (iota 13) (lex_perms 13 (iota 13)) (0 + sum_fact 0 13)) /\
  to_matrix (lex_perms 13 (iota 13)) = Undefined /\
  permutations no_interrupt (fact 13) 13 0 = Undefined.
Proof.
  apply (permutations_overrun no_interrupt (fact 13) 13 0).
  - apply le_n.
  - reflexivity.
  - apply le_n.
  - intros k. reflexivity.
  - rewrite fact_13_Z. discriminate.
Qed.

Lemma permutations_nonpositive (pending : nat -> bool) (fuel : nat) (n : Z) (tick : nat) :
  n <= 0 ->
  record_rows pending fuel n tick = Done (mkState [] [] tick) /\
  permutations pending fuel n tick = Undefined.
Proof.
  intros Hn. unfold permutations, record_rows.
  replace (Z.to_nat n) with O by lia. split; reflexivity.
Qed.

(** * The claims of the specification *)

(** C1, as stated, fails: at [n = 13] no matrix of [13!] rows is returned,
    the row count does not fit the [int] the matrix takes. *)
Lemma permutations_13_no_grid :
  ~ exists m tick',
      permutations no_interrupt (fact 13) 13 0 = Done (m, tick') /\
      nrow m = Z.of_nat (fact 13).
Proof.
  destruct permutations_13 as (_ & _ & Hp).
  intros (m & tick' & H & _). rewrite Hp in H. discriminate H.
Qed.

(** C1, amended. For every [n] with [1 <= n <= 12], absent an interrupt,
    [permutations n] returns a matrix of [n!] rows and [n] columns; every
    row is a permutation of [1..n], no two rows are equal, and every
    permutation of [1..n] is a row. *)
Theorem permutations_all_rows (pending : nat -> bool) (fuel : nat) (n : Z) (tick : nat) :
  1 <= n -> n <= 12 -> quiet pending -> (fact (Z.to_nat n) <= fuel)%nat ->
  exists m tick',
    permutations pending fuel n tick = Done (m, tick') /\
    nrow m = Z.of_nat (fact (Z.to_nat n)) /\ ncol m = n /\
    length (cells m) = fact (Z.to_nat n) /\
    (forall row, In row (cells m) ->
                 length row = Z.to_nat n /\ Permutation row (iota (Z.to_nat n))) /\
    NoDup (cells m) /\
    (forall p, Permutation p (iota (Z.to_nat n)) -> In p (cells m)).
Proof.
  intros Hn Hn12 Hq Hfuel. eexists _, _.
  split; [now apply permutations_quiet |].
  cbn [nrow ncol cells].
  pose proof (length_iota (Z.to_nat n)) as Hlen.
  split; [reflexivity |]. split; [reflexivity |].
  split; [now apply length_lex_perms |].
  split; [| split].
  - intros row Hrow. apply lex_perms_perm in Hrow; [| assumption].
    split; [| assumption].
    apply Permutation_length in Hrow. congruence.
  - apply (StronglySorted_NoDup lex_lt); [apply lex_lt_irrefl |].
    apply lex_perms_sorted; [assumption | apply ascending_iota].
  - intros p Hp. now apply lex_perms_complete.
Qed.

Lemma permutations_all_rows_witness :
  1 <= 3 /\ 3 <= 12 /\ quiet no_interrupt /\ (fact (Z.to_nat 3) <= 6)%nat /\
  exists m tick',
    permutations no_interrupt 6 3 0 = Done (m, tick') /\
    nrow m = Z.of_nat (fact (Z.to_nat 3)) /\ ncol m = 3 /\
    length (cells m) = fact (Z.to_nat 3) /\
    (forall row, In row (cells m) ->
                 length row = Z.to_nat 3 /\ Permutation row (iota (Z.to_nat 3))) /\
    NoDup (cells m) /\
    (forall p, Permutation p (iota (Z.to_nat 3)) -> In p (cells m)).
Proof.
  split; [lia |]. split; [lia |]. split; [intros k; reflexivity |].
  split; [simpl; lia |].
  apply (permutations_all_rows no_interrupt 6 3 0);
    [lia | lia | intros k; reflexivity | simpl; lia].
Defined.

(** C2, as stated, fails: at [n = 13] no matrix is returned whose last row
    is [13, 12, ..., 1]. *)
Lemma permutations_13_no_last_row :
  ~ exists m tick',
      permutations no_interrupt (fact 13) 13 0 = Done (m, tick') /\
      last (cells m) [] = rev (iota 13).
Proof.
  destruct permutations_13 as (_ & _ & Hp).
  intros (m & tick' & H & _). rewrite Hp in H. discriminate H.
Qed.

(** C2, amended. For every [n] with [1 <= n <= 12], absent an interrupt,
    the rows of [permutations n] are in strictly ascending lexicographic
    order, the first row is [1, 2, ..., n] and the last row is
    [n, n-1, ..., 1]; for [n = 3] the rows are the six listed ones in that
    order. *)
Theorem permutations_lex_order (pending : nat -> bool) (fuel : nat) (n : Z) (tick : nat) :
  1 <= n -> n <= 12 -> quiet pending -> (fact (Z.to_nat n) <= fuel)%nat ->
  exists m tick',
    permutations pending fuel n tick = Done (m, tick') /\
    StronglySorted lex_lt (cells m) /\
    nth 0 (cells m) [] = iota (Z.to_nat n) /\
    last (cells m) [] = rev (iota (Z.to_nat n)) /\
    (forall k, (k < Z.to_nat n)%nat ->
               nth k (nth 0 (cells m) []) 0 = Z.of_nat k + 1 /\
               nth k (last (cells m) []) 0 = n - Z.of_nat k) /\
    (n = 3 -> cells m = [[1;2;3];[1;3;2];[2;1;3];[2;3;1];[3;1;2];[3;2;1]]).
Proof.
  intros Hn Hn12 Hq Hfuel. eexists _, _.
  split; [now apply permutations_quiet |].
  cbn [cells].
  pose proof (chain_lex_perms _ _ (length_iota (Z.to_nat n)) (ascending_iota _)) as Hc.
  rewrite (chain_first _ _ _ Hc), (chain_last _ _ _ Hc).
  repeat split.
  - apply lex_perms_sorted; [apply length_iota | apply ascending_iota].
  - rewrite nth_iota by assumption. lia.
  - rewrite nth_rev_iota by assumption. lia.
  - intros ->. reflexivity.
Qed.

Lemma permutations_lex_order_witness :
  1 <= 3 /\ 3 <= 12 /\ quiet no_interrupt /\ (fact (Z.to_nat 3) <= 6)%nat /\
  exists m tick',
    permutations no_interrupt 6 3 0 = Done (m, tick') /\
    StronglySorted lex_lt (cells m) /\
    nth 0 (cells m) [] = iota (Z.to_nat 3) /\
    last (cells m) [] = rev (iota (Z.to_nat 3)) /\
    (forall k, (k < Z.to_nat 3)%nat ->
               nth k (nth 0 (cells m) []) 0 = Z.of_nat k + 1 /\
               nth k (last (cells m) []) 0 = 3 - Z.of_nat k) /\
    (3 = 3 -> cells m = [[1;2;3];[1;3;2];[2;1;3];[2;3;1];[3;1;2];[3;2;1]]).
Proof.
  split; [lia |]. split; [lia |]. split; [intros k; reflexivity |].
  split; [simpl; lia |].
  apply (permutations_lex_order no_interrupt 6 3 0);
    [lia | lia | intros k; reflexivity | simpl; lia].
Defined.

(** C3, as stated, fails: on [n = 0] and on [n = -1] no [InvalidArgument]
    failure is raised; the read of [data[0]] is outside the empty [data]. *)
Lemma permutations_zero_not_invalid_argument :
  permutations no_interrupt 0 0 0 = Undefined /\
  failure_kind (permutations no_interrupt 0 0 0) <> Some InvalidArgument /\
  failure_kind (permutations no_interrupt 0 (-1) 0) <> Some InvalidArgument.
Proof. repeat split; discriminate. Qed.

(** C3, amended. For every [n <= 0], [permutations n] does not check [n]:
    the loop body never runs, no row is recorded, no failure of the
    taxonomy is raised, and the matrix is sized from [data[0]] of an empty
    [data], a read outside the container. *)
Theorem permutations_nonpositive_undefined
    (pending : nat -> bool) (fuel : nat) (n : Z) (tick : nat) :
  n <= 0 ->
  record_rows pending fuel n tick = Done (mkState [] [] tick) /\
  permutations pending fuel n tick = Undefined /\
  failure_kind (permutations pending fuel n tick) = None.
Proof.
  intros Hn. destruct (permutations_nonpositive pending fuel n tick Hn) as [Hr Hp].
  rewrite Hp. repeat split; assumption.
Qed.

Lemma permutations_nonpositive_undefined_witness :
  -1 <= 0 /\
  record_rows no_interrupt 0 (-1) 0 = Done (mkState [] [] 0%nat) /\
  permutations no_interrupt 0 (-1) 0 = Undefined /\
  failure_kind (permutations no_interrupt 0 (-1) 0) = None.
Proof.
  split; [lia |]. apply (permutations_nonpositive_undefined no_interrupt 0 (-1) 0). lia.
Defined.

(** C4, as stated, fails: [maxC] on the empty vector raises no
    [InvalidArgument] failure. *)
Lemma maxC_empty_not_invalid_argument :
  failure_kind (maxC []) <> Some InvalidArgument.
Proof. discriminate. Qed.

(** C4, amended. [maxC] does not check its argument: on the empty vector
    [std::max_element] returns the end position and [maxC] reads there,
    outside the container; no failure of the taxonomy is raised. *)
Theorem maxC_empty_undefined :
  max_element [] = length (@nil spec_float) /\
  maxC [] = Undefined /\ failure_kind (maxC []) = None.
Proof. repeat split. Qed.




Example permutations_cancelled_at_last_check :
  permutations (fun t => Nat.eqb t 2) 2 2 0 = Interrupted.
Proof. reflexivity. Qed.

(** C6, as stated, fails: the two formulations are not identical in
    behaviour.  With an interrupt pending at the third check, [n = 2] is
    abandoned by the implemented loops and completed by the direct
    enumeration; and at [n = 13] the direct enumeration lists [13!] rows
    where the implemented function returns no matrix. *)
Lemma permutations_direct_differs :
  (permutations (fun t => Nat.eqb t 2) 2 2 0 = Interrupted /\
   permutations_direct (fun t => Nat.eqb t 2) 2 2 0 = Done ([[1; 2]; [2; 1]], 2%nat)) /\
  (permutations no_interrupt (fact 13) 13 0 = Undefined /\
   permutations_direct no_interrupt (fact 13) 13 0 =
   Done (enumerate_lex 13, (0 + fact 13)%nat)).
Proof.
  split; [split; reflexivity |].
  destruct permutations_13 as (_ & _ & Hp). split; [exact Hp |].
  pose proof (permutations_direct_run no_interrupt (fact 13) 13 0 (le_n _)) as Hd.
  rewrite existsb_quiet in Hd by (intros k; reflexivity).
  exact Hd.
Qed.

(** C6, amended. For every [n] with [1 <= n <= 12], when no interrupt is
    pending, the implemented loops (the outer loop over [i = 1..n] that
    records only when [i = n]) return as rows exactly the listing of all
    permutations of [1..n] in lexicographic order, which is also what the
    direct enumeration of the complete sequence produces.  The listing
    [enumerate_lex] is the strictly increasing list of exactly the
    permutations of [1..n]. *)
Theorem permutations_direct_same
    (pending : nat -> bool) (fuel : nat) (n : Z) (tick tick' : nat) :
  1 <= n -> n <= 12 -> quiet pending -> (fact (Z.to_nat n) <= fuel)%nat ->
  (exists m t,
     permutations pending fuel n tick = Done (m, t) /\
     nrow m = Z.of_nat (fact (Z.to_nat n)) /\ ncol m = n /\
     cells m = enumerate_lex (Z.to_nat n) /\
     exists t', permutations_direct pending fuel n tick' = Done (cells m, t')) /\
  StronglySorted lex_lt (enumerate_lex (Z.to_nat n)) /\
  (forall p, In p (enumerate_lex (Z.to_nat n)) <-> Permutation p (iota (Z.to_nat n))).
Proof.
  intros Hn Hn12 Hq Hfuel. split; [| split].
  - eexists _, _. split; [now apply permutations_quiet |].
    cbn [nrow ncol cells]. repeat split.
    eexists. rewrite <- (Z2Nat.id n) at 1 by lia.
    rewrite permutations_direct_run by assumption.
    rewrite existsb_quiet by assumption. reflexivity.
  - apply lex_perms_sorted; [apply length_iota | apply ascending_iota].
  - intros p. split.
    + apply lex_perms_perm, length_iota.
    + apply lex_perms_complete, length_iota.
Qed.

Lemma permutations_direct_same_witness :
  1 <= 3 /\ 3 <= 12 /\ quiet no_interrupt /\ (fact (Z.to_nat 3) <= 6)%nat /\
  (exists m t,
     permutations no_interrupt 6 3 0 = Done (m, t) /\
     nrow m = Z.of_nat (fact (Z.to_nat 3)) /\ ncol m = 3 /\
     cells m = enumerate_lex (Z.to_nat 3) /\
     exists t', permutations_direct no_interrupt 6 3 4 = Done (cells m, t')) /\
  StronglySorted lex_lt (enumerate_lex (Z.to_nat 3)) /\
  (forall p, In p (enumerate_lex (Z.to_nat 3)) <-> Permutation p (iota (Z.to_nat 3))).
Proof.
  split; [lia |]. split; [lia |]. split; [intros k; reflexivity |].
  split; [simpl; lia |].
  apply (permutations_direct_same no_interrupt 6 3 0 4);
    [lia | lia | intros k; reflexivity | simpl; lia].
Defined.

(** C7, as stated, fails: with a NaN in front, [maxC] returns the NaN, which
    is not the greatest element. *)
Lemma maxC_nan_not_greatest :
  maxC [S754_nan; f32_1_0] = Done S754_nan /\
  ~ exists r, maxC [S754_nan; f32_1_0] = Done r /\ greatest [S754_nan; f32_1_0] r.
Proof.
  split; [reflexivity |].
  intros (r & Hr & _ & Hge). injection Hr as <-.
  specialize (Hge f32_1_0 (or_intror (or_introl eq_refl))). discriminate.
Qed.

(** C7, amended. For every non-empty vector of floats none of which is a
    NaN, [maxC] returns an element of the vector that every element is at
    most; and [maxC [3.0; 1.5; 9.2; -4.0]] is the element 9.2. *)
Theorem maxC_greatest (v : list spec_float) :
  v <> [] -> existsb is_nan v = false ->
  (exists r, maxC v = Done r /\ greatest v r) /\
  maxC [f32_3_0; f32_1_5; f32_9_2; f32_m4_0] = Done f32_9_2.
Proof.
  intros Hne Hnan. split; [| reflexivity].
  destruct (maxC_not_below v Hne) as (r & Hr & Hin & Hmax).
  exists r. split; [assumption |]. split; [assumption |].
  assert (Hnot : forall x, In x v -> is_nan x = false).
  { intros x Hx. destruct (is_nan x) eqn:E; [| reflexivity].
    rewrite <- Hnan. symmetry. apply existsb_exists. now exists x. }
  intros x Hx. apply SFltb_false_leb; auto.
Qed.

Lemma maxC_greatest_witness :
  [f32_3_0; f32_1_5; f32_9_2; f32_m4_0] <> [] /\
  existsb is_nan [f32_3_0; f32_1_5; f32_9_2; f32_m4_0] = false /\
  (exists r, maxC [f32_3_0; f32_1_5; f32_9_2; f32_m4_0] = Done r /\
             greatest [f32_3_0; f32_1_5; f32_9_2; f32_m4_0] r) /\
  maxC [f32_3_0; f32_1_5; f32_9_2; f32_m4_0] = Done f32_9_2.
Proof.
  split; [discriminate |]. split; [reflexivity |].
  apply (maxC_greatest [f32_3_0; f32_1_5; f32_9_2; f32_m4_0]);
    [discriminate | reflexivity].
Defined.

(** C8, as stated, fails: at [n = 13] the recorded [data] is not empty and
    is rectangular, and the copy leaves the matrix (the row count given to
    the matrix is [13!] converted to [int], fewer rows than [data] has). *)
Lemma permutations_13_out_of_bounds :
  exists s,
    record_rows no_interrupt (fact 13) 13 0 = Done s /\
    st_data s <> [] /\ to_matrix (st_data s) = Undefined.
Proof.
  destruct permutations_13 as (Hr & Hm & _).
  eexists. split; [exact Hr |]. cbn [st_data].
  split; [apply lex_perms_nonempty | exact Hm].
Qed.

(** C8, amended. For every [n] with [1 <= n <= 12], absent an interrupt,
    no access of [permutations] leaves its container: [data] is not empty
    when [data[0]] is read, every [data[i]] has the size of [data[0]], and
    the copy, whose every read and write is checked against the sizes,
    fills the [n!] by [n] matrix without leaving it. *)
Theorem permutations_in_bounds
    (pending : nat -> bool) (fuel : nat) (n : Z) (tick : nat) :
  1 <= n -> n <= 12 -> quiet pending -> (fact (Z.to_nat n) <= fuel)%nat ->
  exists s m,
    record_rows pending fuel n tick = Done s /\
    st_data s <> [] /\
    Forall (fun row => length row = length (nth 0 (st_data s) [])) (st_data s) /\
    to_matrix (st_data s) = Done m /\
    nrow m = Z.of_nat (fact (Z.to_nat n)) /\ ncol m = n /\
    nrow m = Z.of_nat (length (st_data s)) /\
    ncol m = Z.of_nat (length (nth 0 (st_data s) [])) /\
    permutations pending fuel n tick = Done (m, st_tick s).
Proof.
  intros Hn Hn12 Hq Hfuel.
  pose proof (record_rows_any pending fuel n tick ltac:(unfold INT_MAX; lia) Hfuel)
    as Hrec.
  rewrite existsb_quiet in Hrec by assumption.
  replace (n <? INT_MAX) with true in Hrec
    by (symmetry; apply Z.ltb_lt; unfold INT_MAX; lia).
  destruct (Z.to_nat n) as [|N'] eqn:EN; [lia |]. rewrite <- EN in *.
  pose proof (lex_perms_rect (Z.to_nat n)) as Hrect.
  pose proof (lex_perms_nonempty (Z.to_nat n)) as Hne.
  pose proof (fact_fits_int (Z.to_nat n) ltac:(lia)) as Hfit.
  assert (Hlen : length (lex_perms (Z.to_nat n) (iota (Z.to_nat n))) = fact (Z.to_nat n))
    by apply length_lex_perms, length_iota.
  pose proof (to_matrix_rect _ _ Hne Hrect ltac:(lia) ltac:(unfold INT_MAX; lia))
    as Hmat.
  rewrite Hlen in Hmat. specialize (Hmat Hfit).
  rewrite Z2Nat.id in Hmat by lia.
  assert (H0 : length (nth 0 (lex_perms (Z.to_nat n) (iota (Z.to_nat n))) []) = Z.to_nat n).
  { rewrite Forall_forall in Hrect. apply Hrect.
    destruct (lex_perms (Z.to_nat n) (iota (Z.to_nat n))); [congruence | now left]. }
  eexists _, _. split; [exact Hrec |]. cbn [st_data st_tick].
  split; [exact Hne |].
  split; [now rewrite H0 |].
  split; [exact Hmat |]. cbn [nrow ncol].
  split; [reflexivity |]. split; [reflexivity |].
  split; [now rewrite Hlen |].
  split; [rewrite H0; lia |].
  unfold permutations. rewrite Hrec. cbn [bind st_data st_tick].
  now rewrite Hmat.
Qed.

Lemma permutations_in_bounds_witness :
  1 <= 3 /\ 3 <= 12 /\ quiet no_interrupt /\ (fact (Z.to_nat 3) <= 6)%nat /\
  exists s m,
    record_rows no_interrupt 6 3 0 = Done s /\
    st_data s <> [] /\
    Forall (fun row => length row = length (nth 0 (st_data s) [])) (st_data s) /\
    to_matrix (st_data s) = Done m /\
    nrow m = Z.of_nat (fact (Z.to_nat 3)) /\ ncol m = 3 /\
    nrow m = Z.of_nat (length (st_data s)) /\
    ncol m = Z.of_nat (length (nth 0 (st_data s) [])) /\
    permutations no_interrupt 6 3 0 = Done (m, st_tick s).
Proof.
  split; [lia |]. split; [lia |]. split; [intros k; reflexivity |].
  split; [simpl; lia |].
  apply (permutations_in_bounds no_interrupt 6 3 0);
    [lia | lia | intros k; reflexivity | simpl; lia].
Defined.




(** * Further properties of the code *)

(** ** next_permutation on any vector *)

Lemma next_permutation_false_inv (v v' : list Z) :
  next_permutation v = (false, v') ->
  find_ascent v (length v - 1) = None /\ v' = rev v.
Proof.
  unfold next_permutation.
  destruct (find_ascent v (length v - 1)); [discriminate |].
  intros [= <-]. split; reflexivity.
Qed.

Lemma nonincreasing_head (h : Z) (t : list Z) :
  nonincreasing t -> (t <> [] -> at_ t 0 <= h) -> nonincreasing (h :: t).
Proof.
  intros Ht Hh. constructor; [assumption |].
  destruct t as [|y t]; [constructor |].
  specialize (Hh ltac:(discriminate)). unfold at_ in Hh. simpl in Hh.
  apply StronglySorted_inv in Ht. destruct Ht as [_ Hf].
  constructor; [assumption |].
  rewrite Forall_forall in *. intros z Hz. specialize (Hf z Hz). simpl in Hf. lia.
Qed.

Lemma find_ascent_None_nonincreasing (v : list Z) :
  find_ascent v (length v - 1) = None <-> nonincreasing v.
Proof.
  induction v as [|h t IH].
  - split; [constructor | reflexivity].
  - destruct t as [|y t].
    { split; [repeat constructor | reflexivity]. }
    replace (length (h :: y :: t) - 1)%nat with (S (length (y :: t) - 1))
      by (simpl; lia).
    destruct (find_ascent (y :: t) (length (y :: t) - 1)) as [i|] eqn:E.
    + rewrite (find_ascent_cons_Some h _ _ _ E). split; [intros H; discriminate H |].
      intros Hs. apply StronglySorted_inv in Hs.
      destruct Hs as [Hs _]. apply IH in Hs. discriminate Hs.
    + rewrite (find_ascent_cons_None h _ _ E).
      pose proof (proj1 IH eq_refl) as Ht.
      unfold at_; cbn [nth].
      destruct (h <? y) eqn:Ehy.
      * split; [intros H; discriminate H |]. intros Hs.
        apply StronglySorted_inv in Hs. destruct Hs as [_ Hf].
        inversion Hf; subst. apply Z.ltb_lt in Ehy. lia.
      * split; [| reflexivity]. intros _.
        apply Z.ltb_ge in Ehy. apply nonincreasing_head; [assumption |].
        intros _. exact Ehy.
Qed.

(** The last element above [x], when there is one. *)
Lemma split_last_greater (x : Z) (t : list Z) :
  Exists (fun z => x < z) t ->
  exists a y b, t = a ++ y :: b /\ x < y /\ Forall (fun z => z <= x) b.
Proof.
  induction t as [|z t IH]; intros Hex; [inversion Hex |].
  destruct (Exists_dec (fun z => x < z) t (fun z => Z_lt_dec x z)) as [Ht | Ht].
  - destruct (IH Ht) as (a & y & b & -> & Hy & Hb).
    exists (z :: a), y, b. repeat split; assumption.
  - exists [], z, t. repeat split.
    + inversion Hex; subst; [assumption | contradiction].
    + rewrite Forall_forall. intros w Hw.
      destruct (Z_lt_dec x w) as [Hlt | Hge]; [| lia].
      exfalso. apply Ht. apply Exists_exists. now exists w.
Qed.

(** With a non-increasing tail, the head is exchanged with the last element
    above it and the tail is reversed. *)
Lemma next_permutation_head (x y : Z) (a b : list Z) :
  nonincreasing (a ++ y :: b) -> x < y -> Forall (fun z => z <= x) b ->
  next_permutation (x :: a ++ y :: b) = (true, y :: rev b ++ x :: rev a).
Proof.
  intros Hd Hxy Hb.
  assert (Hhead : x < at_ (a ++ y :: b) 0).
  { destruct a as [|z a]; unfold at_; simpl; [assumption |].
    simpl in Hd. apply StronglySorted_inv in Hd. destruct Hd as [_ Hf].
    rewrite Forall_forall in Hf. specialize (Hf y).
    assert (y <= z) by (apply Hf, in_or_app; right; now left). lia. }
  unfold next_permutation.
  replace (length (x :: a ++ y :: b) - 1)%nat
    with (S (length (a ++ y :: b) - 1)).
  2:{ simpl. rewrite length_app. simpl. lia. }
  rewrite (find_ascent_cons_None x _ _ (proj2 (find_ascent_None_nonincreasing _) Hd)).
  apply Z.ltb_lt in Hhead. rewrite Hhead. cbv zeta.
  replace (at_ (x :: a ++ y :: b) 0) with x by reflexivity.
  replace (length (x :: a ++ y :: b)) with (S (length (a ++ y :: b)))
    by reflexivity.
  rewrite find_greater_cons.
  2:{ exists O. split; [| now apply Z.ltb_lt].
      rewrite length_app. simpl. lia. }
  rewrite (find_greater_middle x y a b Hxy Hb), iter_swap_head.
  unfold reverse_from. simpl. f_equal.
  rewrite rev_app_distr. simpl. now rewrite <- app_assoc.
Qed.

(** The shape of a call that answers [true]: a prefix is kept, the pivot
    [x] is exchanged with the last element [y] above it in the
    non-increasing suffix, and the suffix is reversed. *)
Lemma next_permutation_true_inv (v v' : list Z) :
  next_permutation v = (true, v') ->
  exists p x a y b,
    v = p ++ x :: a ++ y :: b /\ v' = p ++ y :: rev b ++ x :: rev a /\
    nonincreasing (a ++ y :: b) /\ x < y /\ Forall (fun z => z <= x) b.
Proof.
  revert v'. induction v as [|h t IH]; intros v' Hn; [discriminate |].
  destruct (next_permutation t) as [[|] t'] eqn:Et.
  - rewrite (next_permutation_cons h _ _ Et) in Hn. injection Hn as <-.
    destruct (IH t' eq_refl) as (p & x & a & y & b & -> & -> & Hd & Hxy & Hb).
    exists (h :: p), x, a, y, b. repeat split; assumption.
  - apply next_permutation_false_inv in Et. destruct Et as [Enone _].
    assert (Hd : nonincreasing t) by now apply find_ascent_None_nonincreasing.
    destruct t as [|z t]; [discriminate |].
    assert (Hhz : h < z).
    { unfold next_permutation in Hn.
      replace (length (h :: z :: t) - 1)%nat with (S (length (z :: t) - 1)) in Hn
        by (simpl; lia).
      rewrite (find_ascent_cons_None h _ _ Enone) in Hn.
      unfold at_ in Hn. cbn [nth] in Hn.
      destruct (h <? z) eqn:E; [now apply Z.ltb_lt | discriminate]. }
    destruct (split_last_greater h (z :: t)) as (a & y & b & Heq & Hy & Hb).
    { now left. }
    rewrite Heq in *.
    rewrite (next_permutation_head h y a b Hd Hy Hb) in Hn. injection Hn as <-.
    exists [], h, a, y, b. repeat split; assumption.
Qed.

(** ** The lexicographic order *)

Lemma lex_lt_app (p a b : list Z) : lex_lt (p ++ a) (p ++ b) <-> lex_lt a b.
Proof.
  induction p as [|h p IH]; [reflexivity |]. simpl. rewrite IH.
  split; [intros [H | [_ H]]; [lia | assumption] | intros H; right; now split].
Qed.

(** A vector between two vectors that share a prefix shares it too. *)
Lemma lex_lt_between (p u u' w : list Z) :
  lex_lt (p ++ u) w -> lex_lt w (p ++ u') ->
  exists w', w = p ++ w' /\ lex_lt u w' /\ lex_lt w' u'.
Proof.
  revert w. induction p as [|h p IH]; intros w H1 H2.
  - exists w. now repeat split.
  - destruct w as [|g w]; [destruct (p ++ u); contradiction |].
    simpl in H1, H2.
    assert (g = h) as -> by (destruct H1 as [? | [? _]], H2 as [? | [? _]]; lia).
    destruct H1 as [? | [_ H1]]; [lia |].
    destruct H2 as [? | [_ H2]]; [lia |].
    destruct (IH w H1 H2) as (w' & -> & Hu & Hu').
    exists w'. now repeat split.
Qed.

(** A non-increasing vector is the last of its rearrangements, and a
    non-decreasing one the first. *)
Lemma nonincreasing_lex_max (d w : list Z) :
  nonincreasing d -> Permutation w d -> ~ lex_lt d w.
Proof.
  intros Hd. revert w. induction Hd as [|h d Hd IH Hf]; intros w Hp Hlt.
  - apply Permutation_sym, Permutation_nil in Hp. subst. exact Hlt.
  - destruct w as [|g w]; [exact Hlt |].
    simpl in Hlt. destruct Hlt as [Hlt | [-> Hlt]].
    + assert (Hg : In g (h :: d)) by (eapply Permutation_in; [exact Hp | now left]).
      destruct Hg as [-> | Hg]; [lia |].
      rewrite Forall_forall in Hf. specialize (Hf g Hg). simpl in Hf. lia.
    + apply Permutation_cons_inv in Hp. exact (IH w Hp Hlt).
Qed.

Lemma nondecreasing_lex_min (s w : list Z) :
  nondecreasing s -> Permutation w s -> ~ lex_lt w s.
Proof.
  intros Hs. revert w. induction Hs as [|h s Hs IH Hf]; intros w Hp Hlt.
  - destruct w; exact Hlt.
  - destruct w as [|g w].
    { apply Permutation_nil in Hp. discriminate. }
    simpl in Hlt. destruct Hlt as [Hlt | [-> Hlt]].
    + assert (Hg : In g (h :: s)) by (eapply Permutation_in; [exact Hp | now left]).
      destruct Hg as [-> | Hg]; [lia |].
      rewrite Forall_forall in Hf. specialize (Hf g Hg). lia.
    + apply Permutation_cons_inv in Hp. exact (IH w Hp Hlt).
Qed.

Lemma nonincreasing_rev (l : list Z) : nonincreasing l -> nondecreasing (rev l).
Proof. apply (StronglySorted_rev (fun x y => y <= x)). Qed.

Lemma pivot_swap_perm (x y : Z) (a b : list Z) :
  Permutation (x :: a ++ y :: b) (y :: rev b ++ x :: rev a).
Proof.
  transitivity (y :: x :: a ++ b).
  - symmetry. apply (Permutation_middle (x :: a) b y).
  - constructor. etransitivity; [| apply Permutation_middle].
    constructor. rewrite <- !Permutation_rev. apply Permutation_app_comm.
Qed.

Lemma pivot_suffix_sorted (x y : Z) (a b : list Z) :
  nonincreasing (a ++ y :: b) -> x < y -> Forall (fun z => z <= x) b ->
  nondecreasing (rev b ++ x :: rev a).
Proof.
  intros Hd Hxy Hb.
  apply StronglySorted_app_iff in Hd. destruct Hd as (Ha & Hyb & Hab).
  apply StronglySorted_inv in Hyb. destruct Hyb as [Hsb _].
  apply StronglySorted_app_iff. repeat split.
  - now apply nonincreasing_rev.
  - constructor; [now apply nonincreasing_rev |].
    rewrite Forall_forall. intros z Hz. apply in_rev in Hz.
    specialize (Hab z y Hz (or_introl eq_refl)). simpl in Hab. lia.
  - intros u w Hu Hw. apply in_rev in Hu.
    rewrite Forall_forall in Hb. specialize (Hb u Hu).
    destruct Hw as [<- | Hw]; [assumption |].
    apply in_rev in Hw.
    specialize (Hab w y Hw (or_introl eq_refl)). simpl in Hab. lia.
Qed.

(** X1. On every vector, repeated elements included, a call of
    [std::next_permutation] only rearranges: the vector after the call is a
    permutation of the vector before, whatever the answer. *)
Theorem next_permutation_rearranges (v : list Z) :
  Permutation v (snd (next_permutation v)) /\
  length (snd (next_permutation v)) = length v.
Proof.
  assert (Hp : Permutation v (snd (next_permutation v))).
  { destruct (next_permutation v) as [[|] v'] eqn:E; cbn [snd].
    - apply next_permutation_true_inv in E.
      destruct E as (p & x & a & y & b & -> & -> & _).
      apply Permutation_app_head, pivot_swap_perm.
    - apply next_permutation_false_inv in E. destruct E as [_ ->].
      apply Permutation_rev. }
  split; [assumption |]. symmetry. now apply Permutation_length.
Qed.

(** X2. When a call of [std::next_permutation] answers [true], the vector
    after the call is strictly above the vector before in the
    lexicographic order. *)
Theorem next_permutation_increases (v v' : list Z) :
  next_permutation v = (true, v') -> lex_lt v v'.
Proof.
  intros E. apply next_permutation_true_inv in E.
  destruct E as (p & x & a & y & b & -> & -> & _ & Hxy & _).
  apply lex_lt_app. simpl. now left.
Qed.

Lemma next_permutation_increases_witness :
  next_permutation [1; 2; 2; 3; 1] = (true, [1; 2; 3; 1; 2]) /\
  lex_lt [1; 2; 2; 3; 1] [1; 2; 3; 1; 2].
Proof.
  split; [reflexivity |].
  apply (next_permutation_increases [1; 2; 2; 3; 1] [1; 2; 3; 1; 2]). reflexivity.
Defined.

(** X3. A call of [std::next_permutation] answers [false] exactly on the
    non-increasing vectors (the empty and the one-element vectors among
    them); the vector is then reversed, which leaves it non-decreasing. *)
Theorem next_permutation_last (v : list Z) :
  (fst (next_permutation v) = false <-> nonincreasing v) /\
  (fst (next_permutation v) = false ->
   snd (next_permutation v) = rev v /\ nondecreasing (snd (next_permutation v))).
Proof.
  assert (Hiff : fst (next_permutation v) = false <-> nonincreasing v).
  { rewrite <- find_ascent_None_nonincreasing. unfold next_permutation.
    destruct (find_ascent v (length v - 1)); cbn [fst];
      split; intros H; (reflexivity || discriminate H). }
  split; [exact Hiff |].
  intros Hf. pose proof (proj1 Hiff Hf) as Hd.
  destruct (next_permutation v) as [[|] v'] eqn:E; [discriminate Hf |].
  apply next_permutation_false_inv in E. destruct E as [_ ->].
  cbn [snd]. split; [reflexivity | now apply nonincreasing_rev].
Qed.

(** X4. When a call of [std::next_permutation] answers [true], the vector
    after the call is the next rearrangement: no permutation of the vector
    lies strictly between the vector before and the vector after. *)
Theorem next_permutation_is_next (v v' w : list Z) :
  next_permutation v = (true, v') -> Permutation w v ->
  lex_lt v w -> ~ lex_lt w v'.
Proof.
  intros E Hp Hvw Hwv'. apply next_permutation_true_inv in E.
  destruct E as (p & x & a & y & b & -> & -> & Hd & Hxy & Hb).
  destruct (lex_lt_between _ _ _ _ Hvw Hwv') as (w' & -> & Hlo & Hhi).
  apply Permutation_app_inv_l in Hp.
  destruct w' as [|g w']; [exact Hlo |].
  simpl in Hlo, Hhi.
  destruct Hlo as [Hxg | [<- Hlo]].
  - destruct Hhi as [Hgy | [-> Hhi]].
    + assert (Hg : In g (x :: a ++ y :: b))
        by (eapply Permutation_in; [exact Hp | now left]).
      destruct Hg as [-> | Hg]; [lia |].
      apply in_app_or in Hg. destruct Hg as [Hg | [-> | Hg]]; [| lia |].
      * apply StronglySorted_app_iff in Hd. destruct Hd as (_ & _ & Hab).
        specialize (Hab g y Hg (or_introl eq_refl)). simpl in Hab. lia.
      * rewrite Forall_forall in Hb. specialize (Hb g Hg). lia.
    + apply (nondecreasing_lex_min (rev b ++ x :: rev a) w').
      * apply (pivot_suffix_sorted x y); assumption.
      * apply (Permutation_cons_inv (a := y)).
        etransitivity; [exact Hp | apply pivot_swap_perm].
      * exact Hhi.
  - apply Permutation_cons_inv in Hp.
    exact (nonincreasing_lex_max _ _ Hd Hp Hlo).
Qed.

Lemma next_permutation_is_next_witness :
  next_permutation [1; 3; 2] = (true, [2; 1; 3]) /\
  Permutation [2; 3; 1] [1; 3; 2] /\ lex_lt [1; 3; 2] [2; 3; 1] /\
  ~ lex_lt [2; 3; 1] [2; 1; 3].
Proof.
  assert (Hp : Permutation [2; 3; 1] [1; 3; 2]).
  { exact (Permutation_rev [2; 3; 1]). }
  assert (Hlt : lex_lt [1; 3; 2] [2; 3; 1]) by (simpl; lia).
  split; [reflexivity |]. split; [exact Hp |]. split; [exact Hlt |].
  apply (next_permutation_is_next [1; 3; 2] [2; 1; 3] [2; 3; 1]);
    [reflexivity | exact Hp | exact Hlt].
Defined.

(** ** max_element as a fold *)

Lemma skipn_nth_cons {A : Type} (d : A) (l : list A) (k : nat) :
  (k < length l)%nat -> skipn k l = nth k l d :: skipn (S k) l.
Proof.
  revert k. induction l as [|h l IH]; intros k Hk; [simpl in Hk; lia |].
  destruct k as [|k]; [reflexivity |].
  simpl in Hk. cbn [skipn nth]. rewrite (IH k) by lia. reflexivity.
Qed.

Lemma max_element_loop_fold (v : list spec_float) :
  forall k first result,
    (S first + k = length v)%nat -> (result <= first)%nat ->
    (max_element_loop v k first result < length v)%nat /\
    fat v (max_element_loop v k first result) =
    fold_left keep_greater (skipn (S first) v) (fat v result).
Proof.
  induction k as [|k IH]; intros first result Hlen Hres; cbn [max_element_loop].
  - rewrite skipn_all2 by lia. split; [lia | reflexivity].
  - cbv zeta. rewrite (skipn_nth_cons S754_nan v (S first)) by lia.
    cbn [fold_left]. fold (fat v (S first)).
    destruct (IH (S first)
                (if SFltb (fat v result) (fat v (S first)) then S first else result))
      as [Hlt Hfold]; [lia | destruct (SFltb _ _); lia |].
    split; [assumption |]. rewrite Hfold. f_equal.
    unfold keep_greater. now destruct (SFltb (fat v result) (fat v (S first))).
Qed.

(** On a non-empty vector [maxC] is the fold of [keep_greater] from the
    first element over the others. *)
Lemma maxC_fold (x : spec_float) (t : list spec_float) :
  maxC (x :: t) = Done (fold_left keep_greater t x).
Proof.
  destruct (max_element_loop_fold (x :: t) (length t) 0 0) as [Hlt Hfold];
    [reflexivity | lia |].
  unfold maxC, max_element.
  replace (length (x :: t) - 1)%nat with (length t) by (simpl; lia).
  rewrite (nth_error_nth' _ S754_nan Hlt). f_equal. exact Hfold.
Qed.

Lemma SFltb_true_not_nan (x y : spec_float) :
  SFltb x y = true -> is_nan x = false /\ is_nan y = false.
Proof. unfold SFltb, SFcompare. destruct x, y; float_order; now split. Qed.

Lemma SFltb_le_trans (r z y : spec_float) :
  is_nan z = false -> SFltb r z = false -> SFltb r y = true -> SFltb z y = true.
Proof. unfold SFltb, SFcompare. destruct r, z, y; float_order. Qed.

Lemma is_nan_keep_greater (r y : spec_float) :
  is_nan (keep_greater r y) = is_nan r.
Proof.
  unfold keep_greater. destruct (SFltb r y) eqn:E; [| reflexivity].
  apply SFltb_true_not_nan in E. destruct E as [-> ->]. reflexivity.
Qed.

Lemma is_nan_fold (t : list spec_float) (x : spec_float) :
  is_nan (fold_left keep_greater t x) = is_nan x.
Proof.
  revert x. induction t as [|y t IH]; intros x; [reflexivity |].
  cbn [fold_left]. now rewrite IH, is_nan_keep_greater.
Qed.

(** X5. The maximum composes: on a non-empty vector [v] followed by [w],
    [maxC] returns what it returns on the result for [v] followed by
    [w]. *)
Theorem maxC_app (v w : list spec_float) :
  v <> [] ->
  exists r, maxC v = Done r /\ maxC (v ++ w) = maxC (r :: w).
Proof.
  intros Hne. destruct v as [|x t]; [congruence |].
  exists (fold_left keep_greater t x). split; [apply maxC_fold |].
  change ((x :: t) ++ w) with (x :: (t ++ w)).
  now rewrite !maxC_fold, fold_left_app.
Qed.

Lemma maxC_app_witness :
  [f32_3_0; f32_1_5] <> [] /\
  exists r, maxC [f32_3_0; f32_1_5] = Done r /\
            maxC ([f32_3_0; f32_1_5] ++ [f32_9_2; f32_m4_0]) =
            maxC (r :: [f32_9_2; f32_m4_0]).
Proof.
  split; [discriminate |].
  apply (maxC_app [f32_3_0; f32_1_5] [f32_9_2; f32_m4_0]). discriminate.
Defined.

(** X6. On a non-empty vector [maxC] returns a NaN exactly when the first
    element is a NaN: a NaN in front is returned whatever follows, and a
    NaN further on is never returned. *)
Theorem maxC_nan_iff_first (x : spec_float) (t : list spec_float) :
  exists r, maxC (x :: t) = Done r /\ is_nan r = is_nan x.
Proof.
  exists (fold_left keep_greater t x). split; [apply maxC_fold | apply is_nan_fold].
Qed.

(** X7. The first element is returned unless a later one is strictly above
    it: if no element of [t] is above [x] then [maxC (x :: t)] is [x]
    itself, also when later elements compare equal to it (as [+0.0] to
    [-0.0]) or cannot be compared (NaN). *)
Theorem maxC_first_kept (x : spec_float) (t : list spec_float) :
  (forall y, In y t -> SFltb x y = false) -> maxC (x :: t) = Done x.
Proof.
  intros H. rewrite maxC_fold. f_equal.
  induction t as [|y t IH]; [reflexivity |].
  cbn [fold_left]. unfold keep_greater at 2.
  rewrite (H y (or_introl eq_refl)). apply IH.
  intros z Hz. apply H. now right.
Qed.

Lemma maxC_first_kept_witness :
  (forall y, In y [S754_zero false; f32_m4_0] -> SFltb (S754_zero true) y = false) /\
  maxC (S754_zero true :: [S754_zero false; f32_m4_0]) = Done (S754_zero true).
Proof.
  assert (H : forall y, In y [S754_zero false; f32_m4_0] ->
                        SFltb (S754_zero true) y = false).
  { intros y [<- | [<- | []]]; reflexivity. }
  split; [exact H |].
  apply (maxC_first_kept (S754_zero true) [S754_zero false; f32_m4_0]). exact H.
Defined.

Lemma max_element_loop_first (v : list spec_float) :
  (forall i, (i < length v)%nat -> is_nan (fat v i) = false) ->
  forall k first result,
    (first + S k = length v)%nat -> (result <= first)%nat ->
    (forall i, (i <= first)%nat -> SFltb (fat v result) (fat v i) = false) ->
    (forall i, (i < result)%nat -> SFltb (fat v i) (fat v result) = true) ->
    forall i, (i < max_element_loop v k first result)%nat ->
              SFltb (fat v i) (fat v (max_element_loop v k first result)) = true.
Proof.
  intros Hnan.
  induction k as [|k IH]; intros first result Hlen Hres Hmax Hfirst;
    cbn [max_element_loop]; [assumption |].
  cbv zeta. destruct (SFltb (fat v result) (fat v (S first))) eqn:E.
  - apply IH; [lia | lia | |].
    + intros i Hi.
      destruct (Nat.eq_dec i (S first)) as [-> | Hne]; [apply SFltb_irrefl |].
      destruct (SFltb (fat v (S first)) (fat v i)) eqn:E'; [| reflexivity].
      rewrite <- (Hmax i) by lia. symmetry. eapply SFltb_trans; eassumption.
    + intros i Hi. apply (SFltb_le_trans (fat v result)); [| | assumption].
      * apply Hnan. lia.
      * apply Hmax. lia.
  - apply IH; [lia | lia | | assumption].
    intros i Hi.
    destruct (Nat.eq_dec i (S first)) as [-> | Hne]; [assumption |].
    apply Hmax. lia.
Qed.

(** X8. On a non-empty vector without NaN, [std::max_element] returns a
    position of the vector, every element is at most the element there,
    and every element before it is strictly below: it is the first
    position of a greatest element. *)
Theorem max_element_first_greatest (v : list spec_float) :
  v <> [] -> existsb is_nan v = false ->
  (max_element v < length v)%nat /\
  (forall i, (i < length v)%nat ->
             SFleb (fat v i) (fat v (max_element v)) = true) /\
  (forall i, (i < max_element v)%nat ->
             SFltb (fat v i) (fat v (max_element v)) = true).
Proof.
  intros Hne Hnan.
  assert (Hnot : forall i, (i < length v)%nat -> is_nan (fat v i) = false).
  { intros i Hi. destruct (is_nan (fat v i)) eqn:E; [| reflexivity].
    rewrite <- Hnan. symmetry. apply existsb_exists.
    exists (fat v i). split; [now apply nth_In | assumption]. }
  destruct v as [|x0 v'] eqn:Ev; [congruence |]. rewrite <- Ev in *.
  assert (Hmax0 : forall i, (i <= 0)%nat -> SFltb (fat v 0) (fat v i) = false).
  { intros i Hi. replace i with O by lia. apply SFltb_irrefl. }
  assert (Hlen : (0 + S (length v - 1) = length v)%nat) by (rewrite Ev; simpl; lia).
  destruct (max_element_loop_spec v (length v - 1) 0 0 Hlen (Nat.le_refl _) Hmax0)
    as [Hlt Hmax].
  assert (Heq : max_element v = max_element_loop v (length v - 1) 0 0)
    by (rewrite Ev; reflexivity).
  rewrite Heq. split; [assumption |]. split.
  - intros i Hi. apply SFltb_false_leb; [apply Hnot; lia | now apply Hnot |].
    now apply Hmax.
  - apply (max_element_loop_first v Hnot); [assumption | lia | assumption |].
    intros i Hi. lia.
Qed.

Lemma max_element_first_greatest_witness :
  [f32_1_5; f32_9_2; f32_3_0; f32_9_2] <> [] /\
  existsb is_nan [f32_1_5; f32_9_2; f32_3_0; f32_9_2] = false /\
  (max_element [f32_1_5; f32_9_2; f32_3_0; f32_9_2] <
   length [f32_1_5; f32_9_2; f32_3_0; f32_9_2])%nat /\
  (forall i, (i < length [f32_1_5; f32_9_2; f32_3_0; f32_9_2])%nat ->
             SFleb (fat [f32_1_5; f32_9_2; f32_3_0; f32_9_2] i)
                   (fat [f32_1_5; f32_9_2; f32_3_0; f32_9_2]
                        (max_element [f32_1_5; f32_9_2; f32_3_0; f32_9_2])) = true) /\
  (forall i, (i < max_element [f32_1_5; f32_9_2; f32_3_0; f32_9_2])%nat ->
             SFltb (fat [f32_1_5; f32_9_2; f32_3_0; f32_9_2] i)
                   (fat [f32_1_5; f32_9_2; f32_3_0; f32_9_2]
                        (max_element [f32_1_5; f32_9_2; f32_3_0; f32_9_2])) = true).
Proof.
  split; [discriminate |]. split; [reflexivity |].
  apply (max_element_first_greatest [f32_1_5; f32_9_2; f32_3_0; f32_9_2]);
    [discriminate | reflexivity].
Defined.

Example max_element_of_ties :
  max_element [f32_1_5; f32_9_2; f32_3_0; f32_9_2] = 1%nat.
Proof. reflexivity. Qed.

(** X9. On every non-empty vector, NaN included, [maxC] returns an element
    of the vector, and no element of the vector is strictly above it. *)
Theorem maxC_no_element_above (v : list spec_float) :
  v <> [] ->
  exists r, maxC v = Done r /\ In r v /\
            forall x, In x v -> SFltb r x = false.
Proof. apply maxC_not_below. Qed.

Lemma maxC_no_element_above_witness :
  [f32_1_0; S754_nan; f32_3_0] <> [] /\
  exists r, maxC [f32_1_0; S754_nan; f32_3_0] = Done r /\
            In r [f32_1_0; S754_nan; f32_3_0] /\
            forall x, In x [f32_1_0; S754_nan; f32_3_0] -> SFltb r x = false.
Proof.
  split; [discriminate |].
  apply (maxC_no_element_above [f32_1_0; S754_nan; f32_3_0]). discriminate.
Defined.

(** ** More on the rows of permutations *)

Lemma chain_nth (v w : list Z) (L : list (list Z)) :
  chain v L w ->
  forall k, (S k < length L)%nat ->
            next_permutation (nth k L []) = (true, nth (S k) L []).
Proof.
  induction 1 as [v | v v' w L Hn Hc IH]; intros k Hk; simpl in Hk; [lia |].
  destruct k as [|k].
  - cbn [nth]. now rewrite (chain_first _ _ _ Hc).
  - cbn [nth]. apply IH. lia.
Qed.

(** X10. For every [n] with [1 <= n <= 12], absent an interrupt, each row
    of the matrix is what [std::next_permutation] makes of the row before,
    and on the last row the call answers [false] and gives the first row
    back. *)
Theorem permutations_rows_successive
    (pending : nat -> bool) (fuel : nat) (n : Z) (tick : nat) :
  1 <= n -> n <= 12 -> quiet pending -> (fact (Z.to_nat n) <= fuel)%nat ->
  exists m tick',
    permutations pending fuel n tick = Done (m, tick') /\
    (forall k, Z.of_nat (S k) < nrow m ->
               next_permutation (nth k (cells m) []) =
               (true, nth (S k) (cells m) [])) /\
    next_permutation (last (cells m) []) = (false, nth 0 (cells m) []).
Proof.
  intros Hn Hn12 Hq Hfuel. eexists _, _.
  split; [now apply permutations_quiet |].
  cbn [nrow cells].
  pose proof (chain_lex_perms _ _ (length_iota (Z.to_nat n)) (ascending_iota _)) as Hc.
  split.
  - intros k Hk. apply (chain_nth _ _ _ Hc).
    rewrite length_lex_perms by apply length_iota. lia.
  - rewrite (chain_first _ _ _ Hc), (chain_last _ _ _ Hc).
    rewrite next_permutation_descending by (apply ascending_rev, ascending_iota).
    now rewrite rev_involutive.
Qed.

Lemma permutations_rows_successive_witness :
  1 <= 3 /\ 3 <= 12 /\ quiet no_interrupt /\ (fact (Z.to_nat 3) <= 6)%nat /\
  exists m tick',
    permutations no_interrupt 6 3 0 = Done (m, tick') /\
    (forall k, Z.of_nat (S k) < nrow m ->
               next_permutation (nth k (cells m) []) =
               (true, nth (S k) (cells m) [])) /\
    next_permutation (last (cells m) []) = (false, nth 0 (cells m) []).
Proof.
  split; [lia |]. split; [lia |]. split; [intros k; reflexivity |].
  split; [simpl; lia |].
  apply (permutations_rows_successive no_interrupt 6 3 0);
    [lia | lia | intros k; reflexivity | simpl; lia].
Defined.





Lemma nth_flat_map_const {A B : Type} (f : A -> list B) (c : nat) (dA : A) (dB : B) :
  (0 < c)%nat ->
  forall (L : list A) (k : nat),
    (forall x, In x L -> length (f x) = c) ->
    (k < length L * c)%nat ->
    nth k (flat_map f L) dB = nth (k mod c) (f (nth (k / c) L dA)) dB.
Proof.
  intros Hc. induction L as [|x L IH]; intros k Hlen Hk; [simpl in Hk; lia |].
  cbn [flat_map]. pose proof (Hlen x (or_introl eq_refl)) as Hx.
  destruct (Nat.lt_ge_cases k c) as [Hlt | Hge].
  - rewrite app_nth1 by lia.
    rewrite Nat.div_small, Nat.mod_small by assumption. reflexivity.
  - rewrite app_nth2 by lia. rewrite Hx.
    rewrite IH; [| intros y Hy; apply Hlen; now right | simpl in Hk; lia].
    replace k with (1 * c + (k - c))%nat at 3 4 by lia.
    rewrite Nat.div_add_l by lia.
    rewrite Nat.add_comm, Nat.Div0.mod_add. reflexivity.
Qed.

Lemma map_fst_selections_aux (pre l : list Z) :
  map fst (selections_aux pre l) = l.
Proof.
  revert pre. induction l as [|h l IH]; intros pre; simpl; [| rewrite IH]; reflexivity.
Qed.

Lemma lex_perms_head (n : nat) (l : list Z) (k : nat) :
  length l = S n -> (k < fact (S n))%nat ->
  nth 0 (nth k (lex_perms (S n) l) []) 0 = nth (k / fact n) l 0.
Proof.
  intros Hlen Hk. rewrite lex_perms_S.
  pose proof (lt_O_fact n) as Hpos.
  assert (Hblock : forall p, In p (selections_aux [] l) -> length (block n p) = fact n).
  { intros p Hp. unfold block. rewrite length_map. apply length_lex_perms.
    apply selections_aux_length in Hp. simpl in Hp. lia. }
  assert (Hq : (k / fact n < S n)%nat).
  { apply Nat.Div0.div_lt_upper_bound. simpl in Hk. lia. }
  rewrite (nth_flat_map_const (block n) (fact n) (0, []) [] Hpos).
  - set (p := nth (k / fact n) (selections_aux [] l) (0, [])).
    assert (Hp : In p (selections_aux [] l)).
    { apply nth_In. rewrite length_selections_aux. lia. }
    assert (Hfst : fst p = nth (k / fact n) l 0).
    { unfold p. rewrite <- (map_fst_selections_aux [] l) at 2.
      change 0 with (fst (0, @nil Z)) at 2. now rewrite map_nth. }
    unfold block.
    rewrite (nth_indep _ [] (fst p :: [])).
    + rewrite map_nth. cbn [nth]. exact Hfst.
    + rewrite length_map. specialize (Hblock p Hp). unfold block in Hblock.
      rewrite length_map in Hblock. rewrite Hblock.
      apply Nat.mod_upper_bound. lia.
  - exact Hblock.
  - rewrite length_selections_aux, Hlen. simpl in Hk. simpl. lia.
Qed.

(** X12. For every [n] with [1 <= n <= 12], absent an interrupt, the rows
    come in [n] blocks of [(n-1)!] rows by their first entry: the first
    entry of row [k] (from 0) is [k / (n-1)! + 1]. *)
Theorem permutations_first_column
    (pending : nat -> bool) (fuel : nat) (n : Z) (tick : nat) :
  1 <= n -> n <= 12 -> quiet pending -> (fact (Z.to_nat n) <= fuel)%nat ->
  exists m tick',
    permutations pending fuel n tick = Done (m, tick') /\
    forall k, Z.of_nat k < nrow m ->
              nth 0 (nth k (cells m) []) 0 =
              Z.of_nat (k / fact (Z.to_nat n - 1)) + 1.
Proof.
  intros Hn Hn12 Hq Hfuel. eexists _, _.
  split; [now apply permutations_quiet |].
  cbn [nrow cells]. intros k Hk. apply Nat2Z.inj_lt in Hk.
  destruct (Z.to_nat n) as [|N] eqn:EN; [lia |].
  replace (S N - 1)%nat with N by lia.
  rewrite lex_perms_head by (assumption || apply length_iota).
  rewrite nth_iota; [lia |].
  apply Nat.Div0.div_lt_upper_bound. simpl in Hk. lia.
Qed.

Lemma permutations_first_column_witness :
  1 <= 3 /\ 3 <= 12 /\ quiet no_interrupt /\ (fact (Z.to_nat 3) <= 6)%nat /\
  exists m tick',
    permutations no_interrupt 6 3 0 = Done (m, tick') /\
    forall k, Z.of_nat k < nrow m ->
              nth 0 (nth k (cells m) []) 0 =
              Z.of_nat (k / fact (Z.to_nat 3 - 1)) + 1.
Proof.
  split; [lia |]. split; [lia |]. split; [intros k; reflexivity |].
  split; [simpl; lia |].
  apply (permutations_first_column no_interrupt 6 3 0);
    [lia | lia | intros k; reflexivity | simpl; lia].
Defined.

(** ** From n = 13 *)

Lemma to_matrix_negative (data : list (list Z)) :
  data <> [] -> to_int (Z.of_nat (length data)) < 0 ->
  to_matrix data = HostError.
Proof.
  intros Hne Hneg. unfold to_matrix.
  destruct data as [|row0 rest]; [congruence |]. cbn [nth_error].
  apply Z.ltb_lt in Hneg. now rewrite Hneg.
Qed.

(** X13. For every [int] [n >= 13], absent an interrupt, [permutations n]
    returns no matrix: [n!] does not fit the [int] row count of the matrix,
    so either R refuses the converted (negative) extent or the copy leaves
    the matrix; at [n = INT_MAX] the loop counter overflows before. *)
Theorem permutations_no_matrix_from_13
    (pending : nat -> bool) (fuel : nat) (n : Z) (tick : nat) :
  13 <= n -> n <= INT_MAX -> quiet pending -> (fact (Z.to_nat n) <= fuel)%nat ->
  permutations pending fuel n tick = Undefined \/
  permutations pending fuel n tick = HostError.
Proof.
  intros Hn Hint Hq Hfuel.
  destruct (Z.eq_dec n INT_MAX) as [Hmax | Hlt].
  - left. unfold permutations.
    rewrite record_rows_any by assumption.
    rewrite existsb_quiet by assumption.
    replace (n <? INT_MAX) with false by (symmetry; apply Z.ltb_ge; lia).
    destruct (Z.to_nat n) eqn:E; [lia | reflexivity].
  - destruct (Z_lt_le_dec (to_int (Z.of_nat (fact (Z.to_nat n)))) 0) as [Hneg | Hpos].
    + right. unfold permutations.
      rewrite record_rows_any by assumption.
      rewrite existsb_quiet by assumption.
      replace (n <? INT_MAX) with true by (symmetry; apply Z.ltb_lt; lia).
      destruct (Z.to_nat n) as [|N'] eqn:E; [lia |]. rewrite <- E in *.
      cbn [bind st_data].
      rewrite to_matrix_negative; [reflexivity | apply lex_perms_nonempty |].
      now rewrite length_lex_perms by apply length_iota.
    + left. rewrite <- (Z2Nat.id n) at 1 by lia.
      apply (permutations_overrun pending fuel (Z.to_nat n) tick);
        try assumption; lia.
Qed.

Lemma permutations_no_matrix_from_13_witness :
  13 <= 13 /\ 13 <= INT_MAX /\ quiet no_interrupt /\
  (fact (Z.to_nat 13) <= fact 13)%nat /\
  (permutations no_interrupt (fact 13) 13 0 = Undefined \/
   permutations no_interrupt (fact 13) 13 0 = HostError).
Proof.
  split; [apply Z.le_refl |]. split; [discriminate |].
  split; [intros k; reflexivity |]. split; [apply le_n |].
  apply (permutations_no_matrix_from_13 no_interrupt (fact 13) 13 0);
    [apply Z.le_refl | discriminate | intros k; reflexivity | apply le_n].
Defined.
